(** * Voice-chat front end: recording session, remote call and playback

    A shallow embedding of the [VoiceChat] React component of
    csci3280-project-frontend, which exists in several variants:

    - [src/unnamed/part_000]  (module [Part000]): own [recordAudio] recorder,
      explicit [status] state, [playAudioResponse] with a playback handle;
    - [src/frontend/my-project/src/main-page.tsx] (module [MainPage]):
      react-media-recorder plus ffmpeg conversion, text entry;
    - [src/unnamed/part_001], first component (module [Part001]): raw
      [MediaRecorder], text entry.

    JavaScript strings are modelled as [string] (code units below 256), typed
    array elements and blob bytes as [Z] in [0, 256), React state cells and
    refs as fields of one [World] record that is threaded through a small
    state-and-exception monad.  Everything the browser or the remote service
    decides (permission, the HTTP response, autoplay policy, transcoding) is
    an explicit argument of the handler that observes it.  A handler is run to
    completion: no other event is interleaved at its [await]s.  [console]
    output is not part of the world. *)

From Stdlib Require Import String Ascii List ZArith Bool Lia PeanoNat.
From Stdlib Require Import SpecFloat.
Import ListNotations.

Set Warnings "-register-all".
Local Open Scope string_scope.
Local Open Scope list_scope.
Local Open Scope Z_scope.

(** ** JavaScript values *)

(** What [response.json()] can produce, plus [undefined] (the result of
    reading a property that is not there).  Numbers are IEEE-754 doubles. *)
Inductive value : Type :=
| VUndefined
| VNull
| VBool (b : bool)
| VNum (x : spec_float)
| VStr (s : string)
| VArr (items : list value)
| VObj (props : list (string * value)).

(** Exceptions that the modelled code can see. *)
Inductive Exn : Type :=
| TypeError                     (* property read on null/undefined, call of a non-function *)
| SyntaxError                   (* response.json() on a malformed body *)
| NetworkError                  (* fetch rejected *)
| HttpError (code : Z)          (* new Error(`HTTP error: ${response.status}`) *)
| RemoteError (message : value) (* new Error(data.message || "Unknown error") *)
| RangeError
| NotAllowedError               (* getUserMedia rejected *)
| EncodingError                 (* decodeAudioData / ffmpeg failed *)
| InvalidStateError.

Inductive Result (A : Type) : Type :=
| Ok (a : A)
| Thrown (e : Exn).
Arguments Ok {A} a.
Arguments Thrown {A} e.

(** ToBoolean. *)
Definition truthy (v : value) : bool :=
  match v with
  | VUndefined | VNull => false
  | VBool b => b
  | VNum (S754_zero _) | VNum S754_nan => false
  | VNum _ => true
  | VStr s => negb (String.eqb s EmptyString)
  | VArr _ | VObj _ => true
  end.

(** Own-property table lookup of a parsed object. *)
Fixpoint lookup (k : string) (props : list (string * value)) : value :=
  match props with
  | [] => VUndefined
  | (k', v) :: rest => if String.eqb k k' then v else lookup k rest
  end.

(** [data.k] for the property names the component reads ([status],
    [transcript], [response_text], [audio], [message]); none of them exists on
    a built-in prototype, so only objects can answer, and reading from [null]
    or [undefined] throws. *)
Definition get_prop (data : value) (k : string) : Result value :=
  match data with
  | VUndefined | VNull => Thrown TypeError
  | VObj props => Ok (lookup k props)
  | _ => Ok VUndefined
  end.

(** [v === "literal"]. *)
Definition strict_eq_str (v : value) (lit : string) : bool :=
  match v with
  | VStr s => String.eqb s lit
  | _ => false
  end.

(** [a || b]. *)
Definition js_or (a b : value) : value := if truthy a then a else b.

(** ** Strings: trim, substr, parseInt, the chunking regular expression *)

Definition code (c : ascii) : nat := nat_of_ascii c.

(** WhiteSpace and LineTerminator code units below 256. *)
Definition is_white (c : ascii) : bool :=
  let n := code c in
  ((9 <=? n) && (n <=? 13))%nat || (n =? 32)%nat || (n =? 160)%nat.

(** LineTerminator code units below 256: what [.] does not match. *)
Definition is_line_terminator (c : ascii) : bool :=
  let n := code c in (n =? 10)%nat || (n =? 13)%nat.

Fixpoint trim_start (s : string) : string :=
  match s with
  | String c r => if is_white c then trim_start r else s
  | EmptyString => EmptyString
  end.

Fixpoint string_rev (s : string) : string :=
  match s with
  | EmptyString => EmptyString
  | String c r => (string_rev r ++ String c EmptyString)%string
  end.

(** [String.prototype.trim]. *)
Definition trim (s : string) : string :=
  string_rev (trim_start (string_rev (trim_start s))).

(** [s.substr(i, n)] for [0 <= i], [0 <= n]. *)
Definition substr (s : string) (i n : nat) : string := substring i n s.

(** Value of a digit in the given radix. *)
Definition digit_value (radix : Z) (c : ascii) : option Z :=
  let n := Z.of_nat (code c) in
  let d := if (48 <=? n) && (n <=? 57) then n - 48
           else if (97 <=? n) && (n <=? 122) then n - 87
           else if (65 <=? n) && (n <=? 90) then n - 55
           else 36 in
  if d <? radix then Some d else None.

(** Longest prefix of digits, most significant first; [None] when the prefix
    is empty. *)
Fixpoint parse_digits (radix : Z) (s : string) (acc : option Z) : option Z :=
  match s with
  | EmptyString => acc
  | String c r =>
      match digit_value radix c with
      | Some d =>
          parse_digits radix r
            (Some (radix * match acc with Some a => a | None => 0 end + d))
      | None => acc
      end
  end.

Definition strip_sign (s : string) : Z * string :=
  match s with
  | String "-"%char r => (-1, r)
  | String "+"%char r => (1, r)
  | _ => (1, s)
  end.

Definition strip_hex_prefix (s : string) : option string :=
  match s with
  | String "0"%char (String x r) =>
      if Ascii.eqb x "x"%char || Ascii.eqb x "X"%char then Some r else None
  | _ => None
  end.

(** [parseInt(s, radix)]; [None] is NaN.  Exact for results below 2^53. *)
Definition parseInt (s : string) (radix : Z) : option Z :=
  let '(sign, s1) := strip_sign (trim_start s) in
  if negb (radix =? 0) && ((radix <? 2) || (36 <? radix)) then None
  else
    let strip := (radix =? 0) || (radix =? 16) in
    let r0 := if radix =? 0 then 10 else radix in
    let '(r, s2) :=
      match (if strip then strip_hex_prefix s1 else None) with
      | Some rest => (16, rest)
      | None => (r0, s1)
      end in
    option_map (Z.mul sign) (parse_digits r s2 None).

(** Conversion of a number stored into a [Uint8Array] element. *)
Definition to_uint8 (n : option Z) : Z :=
  match n with
  | Some z => z mod 256
  | None => 0
  end.

(** [buffer[i] = v] on a typed array: a write past the end is ignored. *)
Fixpoint typed_set (buffer : list Z) (i : nat) (v : Z) : list Z :=
  match buffer, i with
  | [], _ => []
  | _ :: rest, O => v :: rest
  | b :: rest, S i' => b :: typed_set rest i' v
  end.

(** All matches of [/.{1,2}/g], left to right. *)
Fixpoint match_chunks (s : string) : list string :=
  match s with
  | EmptyString => []
  | String c r =>
      if is_line_terminator c then match_chunks r
      else
        match r with
        | String d r' =>
            if is_line_terminator d then String c EmptyString :: match_chunks r
            else String c (String d EmptyString) :: match_chunks r'
        | EmptyString => [String c EmptyString]
        end
  end.

(** [s.match(/.{1,2}/g)]: [null] when nothing matches. *)
Definition match_all (s : string) : option (list string) :=
  match match_chunks s with
  | [] => None
  | chunks => Some chunks
  end.

(** ** The two hex decoders *)

(** part_000, [playAudioResponse], lines 58-61:
    [buffer = new Uint8Array(audioHex.length / 2)] and the loop
    [for (i = 0; i < audioHex.length; i += 2) buffer[i/2] = parseInt(audioHex.substr(i, 2), 16)].
    The first argument bounds the number of iterations. *)
Fixpoint decode_loop (fuel : nat) (audioHex : string) (i : nat) (buffer : list Z)
  : list Z :=
  match fuel with
  | O => buffer
  | S fuel' =>
      if (i <? String.length audioHex)%nat
      then decode_loop fuel' audioHex (i + 2)%nat
             (typed_set buffer (i / 2)%nat (to_uint8 (parseInt (substr audioHex i 2) 16)))
      else buffer
  end.

Definition hex_to_buffer (audioHex : string) : list Z :=
  decode_loop (String.length audioHex) audioHex 0%nat
    (repeat 0 (String.length audioHex / 2)%nat).

(** main-page.tsx, lines 79-81 (also part_001 and part_002):
    [new Uint8Array(audio.match(/.{1,2}/g).map(byte => parseInt(byte, 16)))]
    on a string; [.map] on [null] throws. *)
Definition match_to_bytes (audio : string) : Result (list Z) :=
  match match_all audio with
  | None => Thrown TypeError
  | Some chunks => Ok (map (fun byte => to_uint8 (parseInt byte 16)) chunks)
  end.

(** The same expression on whatever [data.audio] holds: only strings have a
    callable [match]. *)
Definition audio_to_bytes (audio : value) : Result (list Z) :=
  match audio with
  | VStr s => match_to_bytes s
  | _ => Thrown TypeError
  end.

(** ** Messages, blobs, requests *)

Inductive Role : Type := user | assistant.

(** [{ role, content }]; [content] is whatever the code puts there (a literal
    or a field of the response). *)
Record Message : Type := mkMessage { role : Role; content : value }.

Inductive SessionState : Type := idle | recording | processing.

Inductive BlobPart : Type :=
| BytesPart (bytes : list Z)
| TextPart (text : string).

Record Blob : Type := mkBlob { blob_parts : list BlobPart; blob_type : string }.

(** Bytes of the UTF-8 encoding of a string of code units below 256. *)
Fixpoint utf8_length (s : string) : nat :=
  match s with
  | EmptyString => O
  | String c r => ((if (code c <? 128)%nat then 1 else 2) + utf8_length r)%nat
  end.

Definition part_size (p : BlobPart) : nat :=
  match p with
  | BytesPart bytes => List.length bytes
  | TextPart text => utf8_length text
  end.

(** [blob.size]. *)
Definition blob_size (b : Blob) : nat :=
  fold_right (fun p n => (part_size p + n)%nat) O (blob_parts b).

(** [new Blob(chunks, { type })] on an array of blobs. *)
Definition blob_of_chunks (chunks : list Blob) (type : string) : Blob :=
  mkBlob (flat_map blob_parts chunks) type.

(** One [formData.append(name, blob, filename)]. *)
Record FormField : Type :=
  mkField { field_name : string; field_blob : Blob; field_filename : string }.

Record Request : Type :=
  mkRequest { req_url : string; req_method : string; req_body : list FormField }.

(** What the remote end answered: the HTTP status and the body as
    [response.json()] sees it ([None]: not JSON). *)
Record Response : Type := mkResponse { http_status : Z; body : option value }.

(** [response.ok]. *)
Definition ok (r : Response) : bool :=
  (200 <=? http_status r) && (http_status r <=? 299).

(** ** The world: component state and the browser objects it drives *)

(** An [HTMLAudioElement]: the object URL it plays and whether it is playing. *)
Record AudioEl : Type := mkAudio { src : nat; playing : bool }.

(** An object URL: the blob behind it and whether it is still registered. *)
Record UrlEntry : Type := mkUrl { url_blob : Blob; url_live : bool }.

(** A [MediaRecorder]: the stream it records, whether its state is
    ["recording"], and whether a [stop] event is still to be dispatched. *)
Record Recorder : Type :=
  mkRecorder { rec_stream : nat; rec_active : bool; rec_stopping : bool }.

(** Effects in program order. *)
Inductive Event : Type :=
| EvMessages (log : list Message)   (* setMessages produced this log *)
| EvFetch (r : Request)
| EvCreateObjectURL (u : nat)
| EvRevokeObjectURL (u : nat)
| EvNewAudio (a : nat)
| EvPlay (a : nat)
| EvPause (a : nat)
| EvGetUserMedia (s : nat)
| EvTrackStop (s : nat).

Record World : Type := mkWorld {
  (* useState cells *)
  transcript : string;
  messages : list Message;
  isLoading : bool;
  status : SessionState;            (* part_000 *)
  playbackError : option string;    (* part_000 *)
  isRecording : bool;               (* part_001 *)
  (* useRef cells and closure variables *)
  audioRef : option nat;            (* part_000: index into [audios] *)
  mediaRecorder : option nat;       (* index into [recorders] *)
  audioChunks : list Blob;
  (* browser *)
  urls : list UrlEntry;
  audios : list AudioEl;
  recorders : list Recorder;
  streams : list bool;              (* a MediaStream: are its tracks live *)
  trace : list Event
}.

(** The freshly mounted component. *)
Definition initial : World :=
  mkWorld EmptyString [] false idle None false None None [] [] [] [] [] [].

Definition with_transcript (x : string) (w : World) : World :=
  mkWorld x (messages w) (isLoading w) (status w) (playbackError w) (isRecording w)
    (audioRef w) (mediaRecorder w) (audioChunks w) (urls w) (audios w) (recorders w)
    (streams w) (trace w).
Definition with_messages (x : list Message) (w : World) : World :=
  mkWorld (transcript w) x (isLoading w) (status w) (playbackError w) (isRecording w)
    (audioRef w) (mediaRecorder w) (audioChunks w) (urls w) (audios w) (recorders w)
    (streams w) (trace w).
Definition with_isLoading (x : bool) (w : World) : World :=
  mkWorld (transcript w) (messages w) x (status w) (playbackError w) (isRecording w)
    (audioRef w) (mediaRecorder w) (audioChunks w) (urls w) (audios w) (recorders w)
    (streams w) (trace w).
Definition with_status (x : SessionState) (w : World) : World :=
  mkWorld (transcript w) (messages w) (isLoading w) x (playbackError w) (isRecording w)
    (audioRef w) (mediaRecorder w) (audioChunks w) (urls w) (audios w) (recorders w)
    (streams w) (trace w).
Definition with_playbackError (x : option string) (w : World) : World :=
  mkWorld (transcript w) (messages w) (isLoading w) (status w) x (isRecording w)
    (audioRef w) (mediaRecorder w) (audioChunks w) (urls w) (audios w) (recorders w)
    (streams w) (trace w).
Definition with_isRecording (x : bool) (w : World) : World :=
  mkWorld (transcript w) (messages w) (isLoading w) (status w) (playbackError w) x
    (audioRef w) (mediaRecorder w) (audioChunks w) (urls w) (audios w) (recorders w)
    (streams w) (trace w).
Definition with_audioRef (x : option nat) (w : World) : World :=
  mkWorld (transcript w) (messages w) (isLoading w) (status w) (playbackError w)
    (isRecording w) x (mediaRecorder w) (audioChunks w) (urls w) (audios w)
    (recorders w) (streams w) (trace w).
Definition with_mediaRecorder (x : option nat) (w : World) : World :=
  mkWorld (transcript w) (messages w) (isLoading w) (status w) (playbackError w)
    (isRecording w) (audioRef w) x (audioChunks w) (urls w) (audios w)
    (recorders w) (streams w) (trace w).
Definition with_audioChunks (x : list Blob) (w : World) : World :=
  mkWorld (transcript w) (messages w) (isLoading w) (status w) (playbackError w)
    (isRecording w) (audioRef w) (mediaRecorder w) x (urls w) (audios w)
    (recorders w) (streams w) (trace w).
Definition with_urls (x : list UrlEntry) (w : World) : World :=
  mkWorld (transcript w) (messages w) (isLoading w) (status w) (playbackError w)
    (isRecording w) (audioRef w) (mediaRecorder w) (audioChunks w) x (audios w)
    (recorders w) (streams w) (trace w).
Definition with_audios (x : list AudioEl) (w : World) : World :=
  mkWorld (transcript w) (messages w) (isLoading w) (status w) (playbackError w)
    (isRecording w) (audioRef w) (mediaRecorder w) (audioChunks w) (urls w) x
    (recorders w) (streams w) (trace w).
Definition with_recorders (x : list Recorder) (w : World) : World :=
  mkWorld (transcript w) (messages w) (isLoading w) (status w) (playbackError w)
    (isRecording w) (audioRef w) (mediaRecorder w) (audioChunks w) (urls w) (audios w)
    x (streams w) (trace w).
Definition with_streams (x : list bool) (w : World) : World :=
  mkWorld (transcript w) (messages w) (isLoading w) (status w) (playbackError w)
    (isRecording w) (audioRef w) (mediaRecorder w) (audioChunks w) (urls w) (audios w)
    (recorders w) x (trace w).
Definition emit (e : Event) (w : World) : World :=
  mkWorld (transcript w) (messages w) (isLoading w) (status w) (playbackError w)
    (isRecording w) (audioRef w) (mediaRecorder w) (audioChunks w) (urls w) (audios w)
    (recorders w) (streams w) (trace w ++ [e]).

(** Replace element [i] of a list; nothing happens past the end. *)
Fixpoint update {A : Type} (l : list A) (i : nat) (f : A -> A) : list A :=
  match l, i with
  | [], _ => []
  | x :: rest, O => f x :: rest
  | x :: rest, S i' => x :: update rest i' f
  end.

(** ** The monad: state plus exceptions *)

Definition M (A : Type) : Type := World -> World * Result A.

Definition ret {A} (a : A) : M A := fun w => (w, Ok a).

Definition bind {A B} (c : M A) (k : A -> M B) : M B :=
  fun w =>
    match c w with
    | (w', Ok a) => k a w'
    | (w', Thrown e) => (w', Thrown e)
    end.

Definition throw {A} (e : Exn) : M A := fun w => (w, Thrown e).

(** A pure computation that may throw. *)
Definition lift {A} (r : Result A) : M A := fun w => (w, r).

Definition get {A} (field : World -> A) : M A := fun w => (w, Ok (field w)).

Definition modify (f : World -> World) : M unit := fun w => (f w, Ok tt).

(** [try { body } catch (error) { handler }]. *)
Definition try_catch {A} (body : M A) (handler : Exn -> M A) : M A :=
  fun w =>
    match body w with
    | (w', Ok a) => (w', Ok a)
    | (w', Thrown e) => handler e w'
    end.

(** [try { body } finally { fin }]: [fin] always runs; the completion of
    [body] is kept unless [fin] itself throws. *)
Definition try_finally {A} (body : M A) (fin : M unit) : M A :=
  fun w =>
    match body w with
    | (w', r) =>
        match fin w' with
        | (w'', Ok _) => (w'', r)
        | (w'', Thrown e) => (w'', Thrown e)
        end
    end.

Declare Scope js_scope.
Delimit Scope js_scope with js.
Notation "x <- c ;; k" := (bind c (fun x => k))
  (at level 61, c at next level, right associativity) : js_scope.
Notation "c ;; k" := (bind c (fun _ => k))
  (at level 61, right associativity) : js_scope.
Local Open Scope js_scope.

Definition run {A} (c : M A) (w : World) : World := fst (c w).
Definition outcome {A} (c : M A) (w : World) : Result A := snd (c w).

(** ** Primitives *)

Definition setMessages (f : list Message -> list Message) : M unit :=
  modify (fun w => let log := f (messages w) in emit (EvMessages log) (with_messages log w)).
Definition setIsLoading (b : bool) : M unit := modify (with_isLoading b).
Definition setStatus (s : SessionState) : M unit := modify (with_status s).
Definition setPlaybackError (e : option string) : M unit := modify (with_playbackError e).
Definition setTranscript (s : string) : M unit := modify (with_transcript s).
Definition setIsRecording (b : bool) : M unit := modify (with_isRecording b).

(** [await fetch(url, { method, body })]: one outbound request; [remote] is
    what came back ([None]: the promise rejected). *)
Definition fetch (r : Request) (remote : option Response) : M Response :=
  modify (emit (EvFetch r)) ;;
  match remote with
  | Some response => ret response
  | None => throw NetworkError
  end.

(** [await response.json()]. *)
Definition json (response : Response) : M value :=
  match body response with
  | Some data => ret data
  | None => throw SyntaxError
  end.

(** [URL.createObjectURL(blob)]. *)
Definition createObjectURL (b : Blob) : M nat :=
  u <- get (fun w => List.length (urls w)) ;;
  modify (fun w => emit (EvCreateObjectURL u) (with_urls (urls w ++ [mkUrl b true]) w)) ;;
  ret u.

(** [URL.revokeObjectURL(url)]. *)
Definition revokeObjectURL (u : nat) : M unit :=
  modify (fun w =>
    emit (EvRevokeObjectURL u)
      (with_urls (update (urls w) u (fun e => mkUrl (url_blob e) false)) w)).

(** [new Audio(url)]. *)
Definition new_Audio (u : nat) : M nat :=
  a <- get (fun w => List.length (audios w)) ;;
  modify (fun w => emit (EvNewAudio a) (with_audios (audios w ++ [mkAudio u false]) w)) ;;
  ret a.

(** [audio.play()]: the promise is fulfilled and the element plays when the
    browser allows it; the result tells whether it was fulfilled. *)
Definition play (a : nat) (allowed : bool) : M bool :=
  modify (fun w =>
    emit (EvPlay a)
      (if allowed
       then with_audios (update (audios w) a (fun x => mkAudio (src x) true)) w
       else w)) ;;
  ret allowed.

(** [audio.pause()]. *)
Definition pause (a : nat) : M unit :=
  modify (fun w =>
    emit (EvPause a)
      (with_audios (update (audios w) a (fun x => mkAudio (src x) false)) w)).

(** [audio.src] as an object URL index. *)
Definition audio_src (a : nat) (w : World) : nat :=
  match nth_error (audios w) a with
  | Some x => src x
  | None => O
  end.

(** [await navigator.mediaDevices.getUserMedia({ audio: true })]. *)
Definition getUserMedia (granted : bool) : M nat :=
  if granted
  then
    s <- get (fun w => List.length (streams w)) ;;
    modify (fun w => emit (EvGetUserMedia s) (with_streams (streams w ++ [true]) w)) ;;
    ret s
  else throw NotAllowedError.

(** [stream.getTracks().forEach(track => track.stop())]. *)
Definition stop_tracks (s : nat) : M unit :=
  modify (fun w => emit (EvTrackStop s) (with_streams (update (streams w) s (fun _ => false)) w)).

(** [new MediaRecorder(stream)]. *)
Definition new_MediaRecorder (s : nat) : M nat :=
  r <- get (fun w => List.length (recorders w)) ;;
  modify (fun w => with_recorders (recorders w ++ [mkRecorder s false false]) w) ;;
  ret r.

(** [recorder.start()]. *)
Definition recorder_start (r : nat) : M unit :=
  modify (fun w =>
    with_recorders (update (recorders w) r (fun x => mkRecorder (rec_stream x) true false)) w).

(** [recorder.stop()]: throws on an inactive recorder, otherwise the recorder
    becomes inactive and a [dataavailable] and a [stop] event are queued. *)
Definition recorder_stop (r : nat) : M unit :=
  recorder <- get (fun w => nth_error (recorders w) r) ;;
  match recorder with
  | Some x =>
      if rec_active x
      then modify (fun w =>
             with_recorders
               (update (recorders w) r (fun x => mkRecorder (rec_stream x) false true)) w)
      else throw InvalidStateError
  | None => throw TypeError
  end.

(** The queued [stop] event of recorder [r] has been dispatched. *)
Definition stop_dispatched (r : nat) : M unit :=
  modify (fun w =>
    with_recorders
      (update (recorders w) r (fun x => mkRecorder (rec_stream x) (rec_active x) false)) w).

Definition stream_live (s : nat) (w : World) : bool := nth s (streams w) false.
Definition is_playing (a : nat) (w : World) : bool :=
  match nth_error (audios w) a with
  | Some x => playing x
  | None => false
  end.
Definition url_registered (u : nat) (w : World) : bool :=
  match nth_error (urls w) u with
  | Some e => url_live e
  | None => false
  end.

Definition endpoint : string := "http://127.0.0.1:5000/api/chat".

Definition say (r : Role) (text : string) : Message := mkMessage r (VStr text).

(** ** part_000 *)

Module Part000.

Section Handlers.

(** [playAudioResponse] is declared on strings, but [data.audio] is untyped:
    on a truthy non-string the construction of [buffer] either throws or
    yields some array, as decided by JavaScript's coercions.  That outcome is
    a parameter; nothing below depends on what it is. *)
Variable coerced_buffer : value -> Result (list Z).

(** [recordAudio().start], lines 27-42.  The closure variables
    [mediaRecorder] and [audioChunks] are the cells of the same name. *)
Definition start (granted : bool) : M bool :=
  stream <- getUserMedia granted ;;
  r <- new_MediaRecorder stream ;;
  modify (with_mediaRecorder (Some r)) ;;
  modify (with_audioChunks []) ;;
  recorder_start r ;;
  ret true.

(** [mediaRecorder.ondataavailable], line 35. *)
Definition ondataavailable (data : Blob) : M unit :=
  if (0 <? blob_size data)%nat
  then modify (fun w => with_audioChunks (audioChunks w ++ [data]) w)
  else ret tt.

(** [recordAudio().stop], lines 44-51; [data] is what the recorder delivers
    when it stops. *)
Definition stop (data : Blob) : M Blob :=
  mr <- get mediaRecorder ;;
  match mr with
  | None => throw TypeError
  | Some r =>
      recorder_stop r ;;
      ondataavailable data ;;
      stop_dispatched r ;;
      chunks <- get audioChunks ;;
      ret (blob_of_chunks chunks "audio/webm")
  end.

(** [playAudioResponse], lines 55-91.  The rejection handler of
    [audio.play()] runs after the caller has finished; it only writes
    [playbackError], which nothing else in the turn reads or writes. *)
Definition playAudioResponse (audioHex : value) (autoplay : bool) : M unit :=
  try_catch
    (buffer <- match audioHex with
               | VStr s => ret (hex_to_buffer s)
               | other => lift (coerced_buffer other)
               end ;;
     let audioBlob := mkBlob [BytesPart buffer] "audio/wav" in
     audioUrl <- createObjectURL audioBlob ;;
     current <- get audioRef ;;
     match current with
     | Some previous =>
         pause previous ;;
         previous_src <- get (audio_src previous) ;;
         revokeObjectURL previous_src
     | None => ret tt
     end ;;
     audio <- new_Audio audioUrl ;;
     modify (with_audioRef (Some audio)) ;;
     started <- play audio autoplay ;;
     if started then ret tt
     else setPlaybackError (Some "Audio playback blocked. Click to play response."))
    (fun e => setPlaybackError (Some "Failed to play audio response")).

(** [audio.onended], lines 80-83, run when playing element [a] reaches its
    end. *)
Definition onended (a : nat) : M unit :=
  modify (fun w => with_audios (update (audios w) a (fun x => mkAudio (src x) false)) w) ;;
  audioUrl <- get (audio_src a) ;;
  revokeObjectURL audioUrl ;;
  setPlaybackError None.

(** The replay button, line 256: [audioRef.current?.play()]. *)
Definition replay (allowed : bool) : M unit :=
  current <- get audioRef ;;
  match current with
  | Some a => play a allowed ;; ret tt
  | None => ret tt
  end.

(** [handleSendAudio], lines 97-156. *)
Definition handleSendAudio (audioBlob : option Blob) (remote : option Response)
    (autoplay : bool) : M unit :=
  let rejected :=
    setMessages (fun prev => prev ++ [say assistant "No audio recorded. Please try again."]) ;;
    setIsLoading false ;;
    setStatus idle in
  match audioBlob with
  | None => rejected
  | Some blob =>
      if (blob_size blob =? 0)%nat then rejected
      else
        setIsLoading true ;;
        setStatus processing ;;
        try_finally
          (try_catch
             (let formData := [mkField "audio" blob "recording.wav"] in
              response <- fetch (mkRequest endpoint "POST" formData) remote ;;
              if negb (ok response) then throw (HttpError (http_status response))
              else
                data <- json response ;;
                data_status <- lift (get_prop data "status") ;;
                if strict_eq_str data_status "success"
                then
                  data_transcript <- lift (get_prop data "transcript") ;;
                  data_response_text <- lift (get_prop data "response_text") ;;
                  setMessages (fun prev =>
                    prev ++ [mkMessage user data_transcript;
                             mkMessage assistant data_response_text]) ;;
                  data_audio <- lift (get_prop data "audio") ;;
                  if truthy data_audio then playAudioResponse data_audio autoplay
                  else ret tt
                else
                  data_message <- lift (get_prop data "message") ;;
                  throw (RemoteError (js_or data_message (VStr "Unknown error"))))
             (fun error =>
                setMessages (fun prev =>
                  prev ++ [say assistant "Error: Could not process audio. Please try again."])))
          (setIsLoading false ;;
           setStatus idle)
  end.

(** What one click on the microphone button meets: the permission answer,
    the recorded data, the outcome of [decodeAudioData] followed by [toWav]
    ([None]: decoding failed), the remote answer and the autoplay policy. *)
Record Env : Type := mkEnv {
  granted : bool;
  recorded : Blob;
  wav : option (list Z);
  remote : option Response;
  autoplay : bool
}.

(** [toggleRecording], lines 158-193. *)
Definition toggleRecording (env : Env) : M unit :=
  try_catch
    (st <- get status ;;
     match st with
     | recording =>
         setStatus processing ;;
         webmBlob <- stop (recorded env) ;;
         wavBuffer <- match wav env with
                      | Some bytes => ret bytes
                      | None => throw EncodingError
                      end ;;
         let wavBlob := mkBlob [BytesPart wavBuffer] "audio/wav" in
         handleSendAudio (Some wavBlob) (remote env) (autoplay env)
     | _ =>
         started <- start (granted env) ;;
         if started then setStatus recording else ret tt
     end)
    (fun error =>
       setMessages (fun prev =>
         prev ++ [say assistant "Sorry, I couldn't record audio. Please try again."]) ;;
       setStatus idle).

End Handlers.

End Part000.

(** ** main-page.tsx *)

Module MainPage.

(** [convertToWav], lines 19-26: ffmpeg either fails or produces the bytes of
    [output.wav]. *)
Definition convertToWav (blob : Blob) (converted : option (list Z)) : M Blob :=
  match converted with
  | Some data => ret (mkBlob [BytesPart data] "audio/wav")
  | None => throw EncodingError
  end.

(** [handleSendAudio], lines 54-100. *)
Definition handleSendAudio (audioBlob : option Blob) (converted : option (list Z))
    (remote : option Response) (autoplay : bool) : M unit :=
  match audioBlob with
  | None => ret tt
  | Some blob =>
      setIsLoading true ;;
      try_finally
        (try_catch
           (wavBlob <- convertToWav blob converted ;;
            let formData := [mkField "audio" wavBlob "recording.wav"] in
            response <- fetch (mkRequest endpoint "POST" formData) remote ;;
            data <- json response ;;
            data_status <- lift (get_prop data "status") ;;
            if strict_eq_str data_status "success"
            then
              data_transcript <- lift (get_prop data "transcript") ;;
              data_response_text <- lift (get_prop data "response_text") ;;
              setMessages (fun prev =>
                prev ++ [mkMessage user data_transcript;
                         mkMessage assistant data_response_text]) ;;
              data_audio <- lift (get_prop data "audio") ;;
              audioBytes <- lift (audio_to_bytes data_audio) ;;
              let audioBlob := mkBlob [BytesPart audioBytes] "audio/wav" in
              audioUrl <- createObjectURL audioBlob ;;
              audio <- new_Audio audioUrl ;;
              play audio autoplay ;;
              ret tt
            else
              data_message <- lift (get_prop data "message") ;;
              throw (RemoteError (js_or data_message (VStr "Unknown error"))))
           (fun error =>
              setMessages (fun prev =>
                prev ++ [say assistant "Sorry, I couldn't process that. Please try again."])))
        (setIsLoading false)
  end.

(** [handleSendText], lines 150-197. *)
Definition handleSendText (remote : option Response) (autoplay : bool) : M unit :=
  text <- get transcript ;;
  if String.eqb (trim text) EmptyString then ret tt
  else
    let userMessage := trim text in
    setMessages (fun prev => prev ++ [say user userMessage]) ;;
    setTranscript EmptyString ;;
    setIsLoading true ;;
    try_finally
      (try_catch
         (let audioBlob := mkBlob [TextPart userMessage] "text/plain" in
          let formData := [mkField "audio" audioBlob "text.wav"] in
          response <- fetch (mkRequest endpoint "POST" formData) remote ;;
          data <- json response ;;
          data_status <- lift (get_prop data "status") ;;
          if strict_eq_str data_status "success"
          then
            data_response_text <- lift (get_prop data "response_text") ;;
            setMessages (fun prev => prev ++ [mkMessage assistant data_response_text]) ;;
            data_audio <- lift (get_prop data "audio") ;;
            audioBytes <- lift (audio_to_bytes data_audio) ;;
            let audioBlob := mkBlob [BytesPart audioBytes] "audio/wav" in
            audioUrl <- createObjectURL audioBlob ;;
            audio <- new_Audio audioUrl ;;
            play audio autoplay ;;
            ret tt
          else
            data_message <- lift (get_prop data "message") ;;
            throw (RemoteError (js_or data_message (VStr "Unknown error"))))
         (fun error =>
            setMessages (fun prev =>
              prev ++ [say assistant "Sorry, I couldn't process that request. Please try again."])))
      (setIsLoading false).

End MainPage.

(** ** part_001, first component *)

Module Part001.

(** [handleSendAudio], lines 60-102. *)
Definition handleSendAudio (audioBlob : option Blob) (remote : option Response)
    (autoplay : bool) : M unit :=
  match audioBlob with
  | None => ret tt
  | Some blob =>
      setIsLoading true ;;
      let formData := [mkField "audio" blob "recording.wav"] in
      try_finally
        (try_catch
           (response <- fetch (mkRequest endpoint "POST" formData) remote ;;
            data <- json response ;;
            data_status <- lift (get_prop data "status") ;;
            if strict_eq_str data_status "success"
            then
              data_transcript <- lift (get_prop data "transcript") ;;
              data_response_text <- lift (get_prop data "response_text") ;;
              setMessages (fun prev =>
                prev ++ [mkMessage user data_transcript;
                         mkMessage assistant data_response_text]) ;;
              data_audio <- lift (get_prop data "audio") ;;
              audioBytes <- lift (audio_to_bytes data_audio) ;;
              let audioBlob := mkBlob [BytesPart audioBytes] "audio/wav" in
              audioUrl <- createObjectURL audioBlob ;;
              audio <- new_Audio audioUrl ;;
              play audio autoplay ;;
              ret tt
            else
              data_message <- lift (get_prop data "message") ;;
              throw (RemoteError (js_or data_message (VStr "Unknown error"))))
           (fun error =>
              setMessages (fun prev =>
                prev ++ [say assistant "Sorry, I couldn't process that. Please try again."])))
        (setIsLoading false)
  end.

(** [handleSendText], lines 104-146. *)
Definition handleSendText (remote : option Response) (autoplay : bool) : M unit :=
  text <- get transcript ;;
  if String.eqb (trim text) EmptyString then ret tt
  else
    let userMessage := trim text in
    setMessages (fun prev => prev ++ [say user userMessage]) ;;
    setTranscript EmptyString ;;
    setIsLoading true ;;
    try_finally
      (try_catch
         (let audioBlob := mkBlob [TextPart userMessage] "text/plain" in
          let formData := [mkField "audio" audioBlob "text.wav"] in
          response <- fetch (mkRequest endpoint "POST" formData) remote ;;
          data <- json response ;;
          data_status <- lift (get_prop data "status") ;;
          if strict_eq_str data_status "success"
          then
            data_response_text <- lift (get_prop data "response_text") ;;
            setMessages (fun prev => prev ++ [mkMessage assistant data_response_text]) ;;
            data_audio <- lift (get_prop data "audio") ;;
            audioBytes <- lift (audio_to_bytes data_audio) ;;
            let audioBlob := mkBlob [BytesPart audioBytes] "audio/wav" in
            audioUrl <- createObjectURL audioBlob ;;
            audio <- new_Audio audioUrl ;;
            play audio autoplay ;;
            ret tt
          else
            data_message <- lift (get_prop data "message") ;;
            throw (RemoteError (js_or data_message (VStr "Unknown error"))))
         (fun error =>
            setMessages (fun prev =>
              prev ++ [say assistant "Sorry, I couldn't process that request. Please try again."])))
      (setIsLoading false).

(** [mediaRecorderRef.current.ondataavailable], lines 38-40. *)
Definition ondataavailable (data : Blob) : M unit :=
  modify (fun w => with_audioChunks (audioChunks w ++ [data]) w).

(** [mediaRecorderRef.current.onstop], lines 42-46, with the [stream] its
    closure captured. *)
Definition onstop (stream : nat) (remote : option Response) (autoplay : bool) : M unit :=
  chunks <- get audioChunks ;;
  let audioBlob := blob_of_chunks chunks "audio/wav" in
  stop_tracks stream ;;
  handleSendAudio (Some audioBlob) remote autoplay.

(** [toggleRecording], lines 28-58.  [new MediaRecorder] and [start] on a
    fresh stream are taken not to throw. *)
Definition toggleRecording (granted : bool) : M unit :=
  rec <- get isRecording ;;
  if rec : bool
  then
    mr <- get mediaRecorder ;;
    match mr with
    | Some r => recorder_stop r
    | None => ret tt
    end ;;
    setIsRecording false
  else
    try_catch
      (stream <- getUserMedia granted ;;
       r <- new_MediaRecorder stream ;;
       modify (with_mediaRecorder (Some r)) ;;
       modify (with_audioChunks []) ;;
       recorder_start r ;;
       setIsRecording true)
      (fun error =>
         setMessages (fun prev =>
           prev ++ [say assistant "Failed to access microphone. Please check permissions."])).

(** Dispatch of the events queued by [recorder.stop()] on recorder [r]:
    [dataavailable] with the recorded [data], then [stop]. *)
Definition stop_events (r : nat) (data : Blob) (remote : option Response)
    (autoplay : bool) : M unit :=
  ondataavailable data ;;
  stop_dispatched r ;;
  stream <- get (fun w => match nth_error (recorders w) r with
                          | Some x => rec_stream x
                          | None => O
                          end) ;;
  onstop stream remote autoplay.

End Part001.

(** ** Auxiliary notions used to state the properties *)

(** The lower-case hex digit of a nibble. *)
Definition hex_digit (n : Z) : ascii :=
  ascii_of_nat (Z.to_nat (if n <? 10 then 48 + n else 87 + n)).

(** The hex encoding of a byte sequence as the remote service sends it (the
    service is not part of the repository): two digits per byte, high nibble
    first.  It serves to state the round trip. *)
Fixpoint hex_encode (bytes : list Z) : string :=
  match bytes with
  | [] => EmptyString
  | b :: rest => String (hex_digit (b / 16)) (String (hex_digit (b mod 16)) (hex_encode rest))
  end.

(** The decoding rule read off the specification: one byte per consecutive
    pair of characters, high nibble first; a trailing single character is
    dropped.  The decoders of the source are compared with it. *)
Fixpoint decode_pairs (s : string) : list Z :=
  match s with
  | String a (String b r) =>
      to_uint8 (parseInt (String a (String b EmptyString)) 16) :: decode_pairs r
  | _ => []
  end.

Definition is_hex_char (c : ascii) : bool :=
  match digit_value 16 c with Some _ => true | None => false end.

Fixpoint all_hex (s : string) : bool :=
  match s with
  | EmptyString => true
  | String c r => is_hex_char c && all_hex r
  end.

(** [s] without its first [n] characters. *)
Fixpoint drop (n : nat) (s : string) : string :=
  match n, s with
  | O, _ => s
  | S n', String _ r => drop n' r
  | S _, EmptyString => EmptyString
  end.

(** The nibble a hex character stands for. *)
Definition hex_value (c : ascii) : Z :=
  match digit_value 16 c with
  | Some d => d
  | None => 0
  end.

Definition is_byte (b : Z) : bool := (0 <=? b) && (b <? 256).

Definition all_ascii : list ascii := map ascii_of_nat (seq 0 256).

(** On two hex characters, [parseInt(_, 16)] stored into a byte is the high
    nibble times sixteen plus the low nibble. *)
Definition pair_ok (a b : ascii) : bool :=
  if is_hex_char a && is_hex_char b
  then to_uint8 (parseInt (String a (String b EmptyString)) 16)
       =? 16 * hex_value a + hex_value b
  else true.

Definition even_length (s : string) : bool := Nat.even (String.length s).

(** The payload counts as empty: [!audioBlob || audioBlob.size === 0]. *)
Definition is_empty (audioBlob : option Blob) : bool :=
  match audioBlob with
  | None => true
  | Some b => (blob_size b =? 0)%nat
  end.

(** The body reports success: it is an object whose [status] is ["success"]. *)
Definition reports_success (data : value) : bool :=
  match get_prop data "status" with
  | Ok v => strict_eq_str v "success"
  | Thrown _ => false
  end.

(** The body is malformed or does not report success. *)
Definition body_failed (r : Response) : bool :=
  match body r with
  | Some data => negb (reports_success data)
  | None => true
  end.

(** The remote interaction failed: the request was rejected, the HTTP status
    is not 2xx, the body is malformed, or it does not report success. *)
Definition failed (remote : option Response) : bool :=
  match remote with
  | Some r => negb (ok r) || body_failed r
  | None => true
  end.

Definition is_fetch (e : Event) : bool :=
  match e with EvFetch _ => true | _ => false end.

(** Number of outbound requests recorded in a trace. *)
Definition requests (t : list Event) : nat := List.length (filter is_fetch t).

Definition is_assistant (m : Message) : bool :=
  match role m with assistant => true | user => false end.

(** The body is malformed or does not report success, or there is no answer
    at all: failure as seen by a handler that does not look at the HTTP
    status. *)
Definition failed_ignoring_status (remote : option Response) : bool :=
  match remote with
  | Some r => body_failed r
  | None => true
  end.

(** Sample data for the worked examples. *)
Definition sample_blob : Blob := mkBlob [BytesPart [82; 73; 70; 70]] "audio/wav".
Definition empty_blob : Blob := mkBlob [] "audio/wav".
Definition sample_wav : list Z := [82; 73; 70; 70].

(** [{status: "success", transcript: "hello", response_text: "hi there"}] *)
Definition reply_without_audio : value :=
  VObj [("status", VStr "success"); ("transcript", VStr "hello");
        ("response_text", VStr "hi there")].

(** The same with [audio: "48656c6c6f"]. *)
Definition reply_with_audio : value :=
  VObj [("status", VStr "success"); ("transcript", VStr "hello");
        ("response_text", VStr "hi there"); ("audio", VStr "48656c6c6f")].

(** The same with an empty [audio] string. *)
Definition reply_with_empty_audio : value :=
  VObj [("status", VStr "success"); ("transcript", VStr "hello");
        ("response_text", VStr "hi there"); ("audio", VStr EmptyString)].

(** [{status: "error", message: "boom"}] *)
Definition reply_error : value :=
  VObj [("status", VStr "error"); ("message", VStr "boom")].

Definition no_coercion : value -> Result (list Z) := fun _ => Thrown TypeError.

(** ** The component as a transition system *)

Module Playback.

(** What can happen to the part_000 component between renders: a click on
    the microphone button, a direct send, the end of a playing audio
    element, a click on the replay button (shown while [playbackError] is
    set). *)
Inductive step (cb : value -> Result (list Z)) : World -> World -> Prop :=
| step_toggle env w :
    step cb w (run (Part000.toggleRecording cb env) w)
| step_send audioBlob remote autoplay w :
    step cb w (run (Part000.handleSendAudio cb audioBlob remote autoplay) w)
| step_ended a w :
    is_playing a w = true ->
    step cb w (run (Part000.onended a) w)
| step_replay allowed w :
    playbackError w <> None ->
    step cb w (run (Part000.replay allowed) w).

Inductive reachable (cb : value -> Result (list Z)) : World -> Prop :=
| reach_initial : reachable cb initial
| reach_step w w' : reachable cb w -> step cb w w' -> reachable cb w'.

(** The handle is a valid element and only the element it designates can
    be playing. *)
Definition exclusive (w : World) : Prop :=
  (forall a, audioRef w = Some a -> (a < List.length (audios w))%nat) /\
  (forall a, is_playing a w = true -> audioRef w = Some a).

End Playback.

(** A computation keeps an invariant of the world, however it completes. *)
Definition preserves (I : World -> Prop) {A : Type} (c : M A) : Prop :=
  forall w, I w -> I (fst (c w)).

(** A state update that leaves the audio elements and the handle alone. *)
Definition keeps_playback (f : World -> World) : Prop :=
  forall w, audios (f w) = audios w /\ audioRef (f w) = audioRef w.

(** Element [a] of a list of audio elements is playing. *)
Definition playing_at (l : list AudioEl) (a : nat) : bool :=
  match nth_error l a with
  | Some x => playing x
  | None => false
  end.

(** The elements after [pause] on the element the handle designates. *)
Definition silenced (handle : option nat) (l : list AudioEl) : list AudioEl :=
  match handle with
  | Some i => update l i (fun x => mkAudio (src x) false)
  | None => l
  end.

(** The elements after [new Audio(u)] and [play()] on the new element. *)
Definition with_new_audio (u : nat) (autoplay : bool) (l : list AudioEl)
  : list AudioEl :=
  let l' := l ++ [mkAudio u false] in
  if autoplay then update l' (List.length l) (fun x => mkAudio (src x) true) else l'.

Module Capture.

(** What can happen to the part_001 component: a click on the microphone
    button, the dispatch of the events of a stopped recorder, a text
    send. *)
Inductive step : World -> World -> Prop :=
| step_toggle granted w :
    step w (run (Part001.toggleRecording granted) w)
| step_stop_events r x data remote autoplay w :
    nth_error (recorders w) r = Some x ->
    rec_stopping x = true ->
    step w (run (Part001.stop_events r data remote autoplay) w)
| step_text remote autoplay w :
    step w (run (Part001.handleSendText remote autoplay) w).

Inductive reachable : World -> Prop :=
| reach_initial : reachable initial
| reach_step w w' : reachable w -> step w w' -> reachable w'.

(** A live stream belongs to a recorder that is recording or whose [stop]
    event is still to come. *)
Definition held (w : World) : Prop :=
  forall s, stream_live s w = true ->
    exists r x, nth_error (recorders w) r = Some x /\
                rec_stream x = s /\
                rec_active x || rec_stopping x = true.

(** No stream has been released. *)
Definition all_live (w : World) : Prop :=
  forall s, (s < List.length (streams w))%nat -> stream_live s w = true.

End Capture.

(** A state update that leaves the streams and the recorders alone. *)
Definition keeps_capture (f : World -> World) : Prop :=
  forall w, streams (f w) = streams w /\ recorders (f w) = recorders w.


(** * Properties *)

(** ** Worked examples of the string primitives and the decoders *)

Example parseInt_ff : parseInt "ff" 16 = Some 255%Z.
Proof. reflexivity. Qed.

Example parseInt_0x : parseInt "0x" 16 = None.
Proof. reflexivity. Qed.

Example parseInt_neg : parseInt "-f" 16 = Some (-15)%Z.
Proof. reflexivity. Qed.

Example hello_loop : hex_to_buffer "48656c6c6f" = [72; 101; 108; 108; 111]%Z.
Proof. reflexivity. Qed.

Example hello_match : match_to_bytes "48656c6c6f" = Ok [72; 101; 108; 108; 111]%Z.
Proof. reflexivity. Qed.

(** Odd length: the loop drops the last character, the regular expression
    keeps it as a byte of its own. *)
Example odd_loop : hex_to_buffer "abc" = [171]%Z.
Proof. reflexivity. Qed.

Example odd_match : match_to_bytes "abc" = Ok [171; 12]%Z.
Proof. reflexivity. Qed.

Example empty_match : match_to_bytes EmptyString = Thrown TypeError.
Proof. reflexivity. Qed.

Example trim_ex : trim "  hi there  " = "hi there".
Proof. reflexivity. Qed.


(** ** Strings *)

Lemma drop_length (n : nat) (s : string) :
  String.length (drop n s) = (String.length s - n)%nat.
Proof.
  revert s; induction n as [|n IH]; intros [|c r]; simpl; auto using Nat.sub_0_r.
Qed.

Lemma drop_drop (n m : nat) (s : string) : drop n (drop m s) = drop (m + n) s.
Proof.
  revert s; induction m as [|m IH]; intros s; simpl; auto.
  destruct s; auto. destruct n; reflexivity.
Qed.

Lemma substr_two (s : string) (i : nat) :
  substr s i 2 =
    match drop i s with
    | String a (String b _) => String a (String b EmptyString)
    | String a EmptyString => String a EmptyString
    | EmptyString => EmptyString
    end.
Proof.
  unfold substr. revert s; induction i as [|i IH]; intros [|c r]; simpl; auto.
  destruct r as [|a [|b r]]; reflexivity.
Qed.

(** Induction two characters at a time. *)
Lemma string_pair_ind (P : string -> Prop) :
  P EmptyString ->
  (forall a, P (String a EmptyString)) ->
  (forall a b r, P r -> P (String a (String b r))) ->
  forall s, P s.
Proof.
  intros H0 H1 H2 s.
  enough (P s /\ forall a, P (String a s)) by tauto.
  induction s as [|c r [IH1 IH2]]; split; auto.
Qed.

(** ** The index loop of part_000 computes one byte per pair *)

Lemma typed_set_end (pre post : list Z) (v : Z) :
  typed_set (pre ++ post) (List.length pre) v =
    pre ++ match post with [] => [] | _ :: rest => v :: rest end.
Proof.
  induction pre as [|x pre IH]; simpl.
  - destruct post; reflexivity.
  - now rewrite IH.
Qed.

Lemma decode_loop_done (fuel : nat) (s : string) (i : nat) (buffer : list Z) :
  (String.length s <= i)%nat -> decode_loop fuel s i buffer = buffer.
Proof.
  intros H. destruct fuel; simpl; auto.
  apply Nat.ltb_ge in H. now rewrite H.
Qed.

Lemma decode_pairs_length (s : string) :
  List.length (decode_pairs s) = (String.length s / 2)%nat.
Proof.
  induction s as [| a | a b r IH] using string_pair_ind; auto.
  cbn [decode_pairs List.length String.length]. rewrite IH.
  change (S (S (String.length r))) with (1 * 2 + String.length r)%nat.
  rewrite Nat.div_add_l by discriminate. reflexivity.
Qed.

Lemma decode_loop_pairs (fuel : nat) (s : string) (k : nat) (pre : list Z) :
  (String.length s <= fuel + 2 * k)%nat ->
  List.length pre = k ->
  decode_loop fuel s (2 * k) (pre ++ repeat 0 (String.length s / 2 - k)) =
    pre ++ decode_pairs (drop (2 * k) s).
Proof.
  revert k pre; induction fuel as [|fuel IH]; intros k pre Hfuel Hpre.
  - cbn [decode_loop]. pose proof (drop_length (2 * k) s) as Hd.
    destruct (drop (2 * k) s) as [|a t] eqn:E; [|cbn [String.length] in *; lia].
    assert (String.length s / 2 <= k)%nat as Hk
        by (apply Nat.Div0.div_le_upper_bound; lia).
    replace (String.length s / 2 - k)%nat with O by lia. reflexivity.
  - cbn [decode_loop].
    pose proof (drop_length (2 * k) s) as Hd.
    destruct (2 * k <? String.length s)%nat eqn:Hlt.
    + apply Nat.ltb_lt in Hlt.
      rewrite substr_two.
      replace (2 * k / 2)%nat with k by (rewrite Nat.mul_comm, Nat.div_mul; auto).
      destruct (drop (2 * k) s) as [|a [|b r]] eqn:E;
        [cbn [String.length] in Hd; lia| |].
      * (* odd length: the last write falls past the end *)
        cbn [String.length] in Hd.
        assert (String.length s = 2 * k + 1)%nat as Hlen by lia.
        assert (String.length s / 2 = k)%nat as Hhalf.
        { rewrite Hlen, Nat.mul_comm, Nat.div_add_l by discriminate.
          change (1 / 2)%nat with O. lia. }
        rewrite Hhalf, Nat.sub_diag. cbn [repeat]. rewrite <- Hpre at 2.
        rewrite typed_set_end, decode_loop_done by lia. reflexivity.
      * assert (String.length r = String.length s - 2 * k - 2)%nat as Hr
            by (cbn [String.length] in Hd; lia).
        assert (k < String.length s / 2)%nat as Hk.
        { apply Nat.div_le_lower_bound; [discriminate|].
          cbn [String.length] in Hd. lia. }
        destruct (String.length s / 2 - k)%nat as [|n] eqn:En; [lia|].
        cbn [repeat]. rewrite <- Hpre at 2. rewrite typed_set_end.
        replace (2 * k + 2)%nat with (2 * (S k))%nat by lia.
        replace n with (String.length s / 2 - S k)%nat by lia.
        set (v := to_uint8 _).
        replace (pre ++ v :: repeat 0 (String.length s / 2 - S k))
          with ((pre ++ [v]) ++ repeat 0 (String.length s / 2 - S k))
          by (now rewrite <- app_assoc).
        rewrite IH; [| lia | rewrite length_app; cbn [List.length]; lia].
        rewrite <- app_assoc. cbn [app decode_pairs]. f_equal. f_equal.
        replace (2 * S k)%nat with (2 * k + 2)%nat by lia.
        rewrite <- drop_drop, E. reflexivity.
    + apply Nat.ltb_ge in Hlt.
      destruct (drop (2 * k) s) as [|a t] eqn:E; [|cbn [String.length] in *; lia].
      assert (String.length s / 2 <= k)%nat as Hk
          by (apply Nat.Div0.div_le_upper_bound; lia).
      replace (String.length s / 2 - k)%nat with O by lia. reflexivity.
Qed.

(** [hex_to_buffer] on any string: one byte per consecutive pair, a trailing
    odd character is ignored. *)
Lemma hex_to_buffer_pairs (s : string) : hex_to_buffer s = decode_pairs s.
Proof.
  unfold hex_to_buffer.
  pose proof (decode_loop_pairs (String.length s) s 0 [] ltac:(lia) eq_refl) as H.
  cbn [Nat.mul app drop] in H. rewrite Nat.sub_0_r in H. exact H.
Qed.

(** The bound on the iterations is never what stops the loop: any larger
    bound gives the same array. *)
Lemma decode_loop_enough_fuel (fuel : nat) (s : string) :
  (String.length s <= fuel)%nat ->
  decode_loop fuel s 0 (repeat 0 (String.length s / 2)%nat) = hex_to_buffer s.
Proof.
  intros Hfuel. rewrite hex_to_buffer_pairs.
  pose proof (decode_loop_pairs fuel s 0 [] ltac:(lia) eq_refl) as H.
  cbn [Nat.mul app drop] in H. rewrite Nat.sub_0_r in H. exact H.
Qed.

(** ** Hex characters *)

Lemma in_all_ascii (c : ascii) : In c all_ascii.
Proof.
  unfold all_ascii. rewrite <- (ascii_nat_embedding c).
  apply in_map, in_seq. pose proof (nat_ascii_bounded c). lia.
Qed.

Lemma all_pairs_ok :
  forallb (fun a => forallb (pair_ok a) all_ascii) all_ascii = true.
Proof. vm_compute. reflexivity. Qed.

(** High-to-low nibble order. *)
Lemma pair_value (a b : ascii) :
  is_hex_char a = true -> is_hex_char b = true ->
  to_uint8 (parseInt (String a (String b EmptyString)) 16)
  = 16 * hex_value a + hex_value b.
Proof.
  intros Ha Hb.
  pose proof all_pairs_ok as H.
  rewrite forallb_forall in H. specialize (H a (in_all_ascii a)).
  rewrite forallb_forall in H. specialize (H b (in_all_ascii b)).
  unfold pair_ok in H. rewrite Ha, Hb in H. now apply Z.eqb_eq in H.
Qed.

Lemma hex_value_range (c : ascii) : 0 <= hex_value c < 16.
Proof.
  assert (forallb (fun c => (0 <=? hex_value c) && (hex_value c <? 16))
            all_ascii = true) as H by (vm_compute; reflexivity).
  rewrite forallb_forall in H. specialize (H c (in_all_ascii c)).
  apply andb_prop in H as [H0 H1].
  apply Z.leb_le in H0. apply Z.ltb_lt in H1. lia.
Qed.

Lemma hex_not_line_terminator (c : ascii) :
  is_hex_char c = true -> is_line_terminator c = false.
Proof.
  assert (forallb (fun c => implb (is_hex_char c) (negb (is_line_terminator c)))
            all_ascii = true) as H by (vm_compute; reflexivity).
  rewrite forallb_forall in H. specialize (H c (in_all_ascii c)).
  intros Hc. rewrite Hc in H. simpl in H. now apply negb_true_iff in H.
Qed.

Lemma hex_digit_spec (n : Z) :
  0 <= n < 16 -> is_hex_char (hex_digit n) = true /\ hex_value (hex_digit n) = n.
Proof.
  intros Hn.
  assert (forallb (fun k => is_hex_char (hex_digit (Z.of_nat k))
                            && (hex_value (hex_digit (Z.of_nat k)) =? Z.of_nat k))
            (seq 0 16) = true) as H by (vm_compute; reflexivity).
  rewrite forallb_forall in H. specialize (H (Z.to_nat n)).
  rewrite Z2Nat.id in H by lia.
  destruct (andb_prop _ _ (H ltac:(apply in_seq; lia))) as [H1 H2].
  split; [exact H1 | now apply Z.eqb_eq].
Qed.

(** ** The regular-expression decoder of main-page.tsx *)

Lemma match_chunks_pairs (s : string) :
  all_hex s = true -> even_length s = true ->
  map (fun byte => to_uint8 (parseInt byte 16)) (match_chunks s) = decode_pairs s.
Proof.
  unfold even_length.
  induction s as [| a | a b r IH] using string_pair_ind; intros Hhex Heven.
  - reflexivity.
  - discriminate.
  - cbn [all_hex] in Hhex.
    apply andb_prop in Hhex as [Ha Hhex]. apply andb_prop in Hhex as [Hb Hr].
    cbn [match_chunks].
    rewrite (hex_not_line_terminator a Ha), (hex_not_line_terminator b Hb).
    cbn [map decode_pairs]. f_equal. apply IH; auto.
Qed.

(** On a non-empty even-length hex string the expression of main-page.tsx
    yields one byte per pair. *)
Lemma match_to_bytes_pairs (s : string) :
  all_hex s = true -> even_length s = true -> s <> EmptyString ->
  match_to_bytes s = Ok (decode_pairs s).
Proof.
  intros Hhex Heven Hne.
  pose proof (match_chunks_pairs s Hhex Heven) as H.
  unfold match_to_bytes, match_all.
  destruct (match_chunks s) as [|c cs] eqn:E.
  - destruct s as [|a [|b r]]; [congruence | discriminate |].
    cbn [all_hex] in Hhex.
    apply andb_prop in Hhex as [Ha Hhex]. apply andb_prop in Hhex as [Hb _].
    cbn [match_chunks] in E.
    rewrite (hex_not_line_terminator a Ha), (hex_not_line_terminator b Hb) in E.
    discriminate.
  - now rewrite H.
Qed.

(** ** Round trip through the encoder of the remote service *)

Lemma hex_encode_all_hex (bytes : list Z) :
  forallb is_byte bytes = true -> all_hex (hex_encode bytes) = true.
Proof.
  induction bytes as [|b rest IH]; intros H; [reflexivity|].
  cbn [forallb] in H. apply andb_prop in H as [Hb Hrest].
  unfold is_byte in Hb. apply andb_prop in Hb as [H0 H1].
  apply Z.leb_le in H0. apply Z.ltb_lt in H1.
  cbn [hex_encode all_hex].
  destruct (hex_digit_spec (b / 16)) as [-> _];
    [split; [apply Z.div_pos | apply Z.div_lt_upper_bound]; lia|].
  destruct (hex_digit_spec (b mod 16)) as [-> _];
    [apply Z.mod_pos_bound; lia|].
  now rewrite IH.
Qed.

Lemma hex_encode_length (bytes : list Z) :
  String.length (hex_encode bytes) = (2 * List.length bytes)%nat.
Proof.
  induction bytes as [|b rest IH]; [reflexivity|].
  cbn [hex_encode String.length List.length]. rewrite IH. lia.
Qed.

Lemma hex_encode_even (bytes : list Z) : even_length (hex_encode bytes) = true.
Proof.
  unfold even_length. rewrite hex_encode_length, Nat.even_mul. reflexivity.
Qed.

Lemma decode_pairs_encode (bytes : list Z) :
  forallb is_byte bytes = true -> decode_pairs (hex_encode bytes) = bytes.
Proof.
  induction bytes as [|b rest IH]; intros H; [reflexivity|].
  cbn [forallb] in H. apply andb_prop in H as [Hb Hrest].
  unfold is_byte in Hb. apply andb_prop in Hb as [H0 H1].
  apply Z.leb_le in H0. apply Z.ltb_lt in H1.
  cbn [hex_encode decode_pairs].
  destruct (hex_digit_spec (b / 16)) as [Hc1 Hv1];
    [split; [apply Z.div_pos | apply Z.div_lt_upper_bound]; lia|].
  destruct (hex_digit_spec (b mod 16)) as [Hc2 Hv2];
    [apply Z.mod_pos_bound; lia|].
  rewrite pair_value, Hv1, Hv2, IH by assumption.
  f_equal. symmetry. apply Z.div_mod. lia.
Qed.

(** part_000: decoding the encoding of any byte sequence gives it back. *)
Lemma hex_to_buffer_round_trip (bytes : list Z) :
  forallb is_byte bytes = true -> hex_to_buffer (hex_encode bytes) = bytes.
Proof.
  intros H. rewrite hex_to_buffer_pairs. now apply decode_pairs_encode.
Qed.

(** main-page.tsx: the same for every non-empty byte sequence. *)
Lemma match_to_bytes_round_trip (bytes : list Z) :
  forallb is_byte bytes = true -> bytes <> [] ->
  match_to_bytes (hex_encode bytes) = Ok bytes.
Proof.
  intros H Hne.
  rewrite match_to_bytes_pairs, decode_pairs_encode; auto.
  - now apply hex_encode_all_hex.
  - apply hex_encode_even.
  - destruct bytes; [congruence | discriminate].
Qed.

(** The two decoders agree on every non-empty even-length hex string. *)
Lemma decoders_agree_nonempty (s : string) :
  all_hex s = true -> even_length s = true -> s <> EmptyString ->
  match_to_bytes s = Ok (hex_to_buffer s).
Proof.
  intros. rewrite hex_to_buffer_pairs. now apply match_to_bytes_pairs.
Qed.

(** ** Handlers *)

Ltac unfold_js :=
  unfold run, outcome, try_finally, try_catch, bind, ret, throw, lift, get, modify,
    setMessages, setIsLoading, setStatus, setPlaybackError, setTranscript,
    setIsRecording, fetch, json, createObjectURL, revokeObjectURL, new_Audio, play,
    pause, getUserMedia, stop_tracks, new_MediaRecorder, recorder_start,
    recorder_stop, stop_dispatched in *.

(** [playAudioResponse] never throws and touches neither the log, the flags
    nor the network. *)
Lemma playAudioResponse_frame cb (audioHex : value) (autoplay : bool) (w : World) :
  let c := Part000.playAudioResponse cb audioHex autoplay in
  outcome c w = Ok tt /\
  messages (run c w) = messages w /\
  isLoading (run c w) = isLoading w /\
  status (run c w) = status w /\
  streams (run c w) = streams w /\
  requests (trace (run c w)) = requests (trace w).
Proof.
  unfold Part000.playAudioResponse, requests. unfold_js.
  assert (forall l x, is_fetch x = false ->
            filter is_fetch (l ++ [x]) = filter is_fetch l) as Hf.
  { intros l x Hx. rewrite filter_app. simpl. rewrite Hx. apply app_nil_r. }
  destruct audioHex; try destruct (cb _); cbn;
    destruct (audioRef w); destruct autoplay; cbn;
    rewrite ?Hf by reflexivity; repeat split; reflexivity.
Qed.

(** Case analysis on a call of [playAudioResponse] inside a larger run. *)
Ltac play_cases E :=
  match type of E with
  | context [Part000.playAudioResponse ?cb ?v ?ap ?w] =>
      let F := fresh "F" in
      pose proof (playAudioResponse_frame cb v ap w) as F;
      unfold run, outcome in F;
      destruct (Part000.playAudioResponse cb v ap w) as [? ?];
      cbn [fst snd] in F;
      destruct F as (-> & ? & ? & ? & ? & ?)
  end.

Ltac innermost x k :=
  lazymatch x with
  | context [match ?y with _ => _ end] => innermost y k
  | _ => k x
  end.

(** Split on the innermost stuck scrutinee of [E]. *)
Ltac break_in E :=
  match type of E with
  | context [match ?x with _ => _ end] =>
      innermost x ltac:(fun y => destruct y eqn:?)
  end.

Ltac reduce_in E := cbn -[Part000.playAudioResponse String.eqb trim] in E.

Ltac settle E :=
  reduce_in E; repeat (first [play_cases E | break_in E]; reduce_in E).

Ltac finish E := inversion E; subst; clear E; cbn -[String.eqb trim].

(** Name the result of running [c] on [w] and unfold the handler into [E]. *)
Tactic Notation "run_as" ident(w') ident(r) ident(E) :=
  unfold run, outcome;
  match goal with
  | |- context [?c ?w] =>
      match type of (c w) with
      | (World * Result _)%type => destruct (c w) as [w' r] eqn:E
      end
  end;
  cbn [fst snd];
  repeat progress
    unfold Part001.stop_events, Part001.onstop, Part001.toggleRecording,
      Part000.toggleRecording, Part000.start, Part000.stop, Part000.ondataavailable,
      Part000.handleSendAudio, MainPage.handleSendAudio, Part001.handleSendAudio,
      Part001.handleSendText, MainPage.handleSendText,
      MainPage.convertToWav, Part001.ondataavailable in E;
  repeat progress unfold_js.

(** *** Return to idle *)

Lemma part000_send_returns_to_idle cb audioBlob remote autoplay w :
  let c := Part000.handleSendAudio cb audioBlob remote autoplay in
  outcome c w = Ok tt /\ status (run c w) = idle /\ isLoading (run c w) = false.
Proof.
  intros c; subst c. run_as w' r E. settle E; finish E; auto.
Qed.

Lemma main_page_send_clears_loading blob converted remote autoplay w :
  let c := MainPage.handleSendAudio (Some blob) converted remote autoplay in
  outcome c w = Ok tt /\ isLoading (run c w) = false.
Proof.
  intros c; subst c. run_as w' r E. settle E; finish E; auto.
Qed.

Lemma part001_send_clears_loading blob remote autoplay w :
  let c := Part001.handleSendAudio (Some blob) remote autoplay in
  outcome c w = Ok tt /\ isLoading (run c w) = false.
Proof.
  intros c; subst c. run_as w' r E. settle E; finish E; auto.
Qed.

Ltac send_cases E :=
  match type of E with
  | context [Part000.handleSendAudio ?cb ?b ?rm ?ap ?w0] =>
      let F := fresh "F" in
      pose proof (part000_send_returns_to_idle cb b rm ap w0) as F;
      unfold run, outcome in F; cbn zeta in F;
      destruct (Part000.handleSendAudio cb b rm ap w0) as [? ?];
      cbn [fst snd] in F; destruct F as (-> & ? & ?)
  end.

(** A click on the microphone button while recording: whatever the recorder,
    the decoder, the remote end and the autoplay policy do, the turn ends in
    [idle] and no exception escapes. *)
Lemma part000_turn_ends_idle cb env w :
  let c := Part000.toggleRecording cb env in
  status w = recording ->
  outcome c w = Ok tt /\ status (run c w) = idle.
Proof.
  intros c Hrec; subst c. unfold run, outcome.
  destruct (Part000.toggleRecording cb env w) as [w' r] eqn:E. cbn [fst snd].
  unfold Part000.toggleRecording, Part000.stop, Part000.ondataavailable,
    recorder_stop, stop_dispatched in E.
  unfold_js. rewrite Hrec in E.
  cbn -[Part000.handleSendAudio Nat.ltb] in E.
  repeat (first [send_cases E | break_in E];
          cbn -[Part000.handleSendAudio Nat.ltb] in E);
    finish E; auto.
Qed.

(** *** The empty payload *)

Lemma part000_empty_payload cb audioBlob remote autoplay w :
  is_empty audioBlob = true ->
  let w' := run (Part000.handleSendAudio cb audioBlob remote autoplay) w in
  trace w' = trace w ++ [EvMessages (messages w')] /\
  messages w' = messages w ++ [say assistant "No audio recorded. Please try again."].
Proof.
  intros Hempty. cbn zeta. run_as w' r E.
  destruct audioBlob as [blob|]; cbn in Hempty; [rewrite Hempty in E|];
    reduce_in E; finish E; auto.
Qed.

Lemma requests_app (t1 t2 : list Event) :
  requests (t1 ++ t2) = (requests t1 + requests t2)%nat.
Proof. unfold requests. now rewrite filter_app, length_app. Qed.

(** *** A successful answer *)

Lemma part000_success cb blob r props autoplay w :
  blob_size blob <> O ->
  ok r = true ->
  body r = Some (VObj props) ->
  lookup "status" props = VStr "success" ->
  messages (run (Part000.handleSendAudio cb (Some blob) (Some r) autoplay) w) =
    messages w ++ [mkMessage user (lookup "transcript" props);
                   mkMessage assistant (lookup "response_text" props)].
Proof.
  intros Hsize Hok Hbody Hstatus. run_as w' res E.
  apply Nat.eqb_neq in Hsize. rewrite Hsize in E.
  cbn -[Part000.playAudioResponse ok] in E. rewrite Hok, Hbody in E.
  cbn -[Part000.playAudioResponse ok] in E. rewrite Hstatus in E.
  cbn -[Part000.playAudioResponse ok] in E.
  destruct (truthy (lookup "audio" props)); [play_cases E|]; finish E; auto.
Qed.

(** In main-page.tsx and part_001 the same holds when the answer carries an
    audio string on which the regular expression finds a match. *)
Lemma main_page_success blob converted r props audio autoplay w :
  body r = Some (VObj props) ->
  lookup "status" props = VStr "success" ->
  lookup "audio" props = VStr audio ->
  match_all audio <> None ->
  messages (run (MainPage.handleSendAudio (Some blob) (Some converted) (Some r) autoplay) w) =
    messages w ++ [mkMessage user (lookup "transcript" props);
                   mkMessage assistant (lookup "response_text" props)].
Proof.
  intros Hbody Hstatus Haudio Hmatch. run_as w' res E.
  unfold audio_to_bytes, match_to_bytes in E.
  cbn -[match_all] in E. rewrite Hbody in E.
  cbn -[match_all] in E. rewrite Hstatus in E.
  cbn -[match_all] in E. rewrite Haudio in E.
  destruct (match_all audio); [|congruence].
  cbn in E. destruct autoplay; finish E; auto.
Qed.

(** *** A failed interaction *)

Lemma part000_failure cb blob remote autoplay w :
  blob_size blob <> O ->
  failed remote = true ->
  messages (run (Part000.handleSendAudio cb (Some blob) remote autoplay) w) =
    messages w ++ [say assistant "Error: Could not process audio. Please try again."].
Proof.
  intros Hsize Hfail. run_as w' res E.
  apply Nat.eqb_neq in Hsize. rewrite Hsize in E.
  unfold failed, body_failed, reports_success in Hfail.
  destruct remote as [r|]; [|reduce_in E; finish E; auto].
  cbn -[Part000.playAudioResponse ok strict_eq_str] in E.
  destruct (ok r); cbn -[Part000.playAudioResponse ok strict_eq_str] in E, Hfail;
    [|finish E; auto].
  destruct (body r) as [data|];
    cbn -[Part000.playAudioResponse ok strict_eq_str] in E; [|finish E; auto].
  destruct (get_prop data "status") as [v|e] eqn:Hst;
    cbn -[Part000.playAudioResponse ok strict_eq_str] in E; [|finish E; auto].
  apply negb_true_iff in Hfail. rewrite Hfail in E.
  destruct (get_prop data "message");
    cbn -[Part000.playAudioResponse ok strict_eq_str] in E; finish E; auto.
Qed.

Lemma part001_failure blob remote autoplay w :
  failed_ignoring_status remote = true ->
  messages (run (Part001.handleSendAudio (Some blob) remote autoplay) w) =
    messages w ++ [say assistant "Sorry, I couldn't process that. Please try again."].
Proof.
  intros Hfail. run_as w' res E.
  unfold failed_ignoring_status, body_failed, reports_success in Hfail.
  destruct remote as [r|]; [|reduce_in E; finish E; auto].
  cbn -[strict_eq_str] in E.
  destruct (body r) as [data|]; cbn -[strict_eq_str] in E; [|finish E; auto].
  destruct (get_prop data "status") as [v|e] eqn:Hst;
    cbn -[strict_eq_str] in E; [|finish E; auto].
  apply negb_true_iff in Hfail. rewrite Hfail in E.
  destruct (get_prop data "message"); cbn -[strict_eq_str] in E; finish E; auto.
Qed.

(** *** Success without audio *)


(** ** Invariants through the monad *)

Section Preservation.

Context (I : World -> Prop).

Lemma preserves_ret {A} (a : A) : preserves I (ret a).
Proof. now intros w. Qed.

Lemma preserves_throw {A} (e : Exn) : preserves I (@throw A e).
Proof. now intros w. Qed.

Lemma preserves_lift {A} (r : Result A) : preserves I (lift r).
Proof. now intros w. Qed.

Lemma preserves_get {A} (field : World -> A) : preserves I (get field).
Proof. now intros w. Qed.

Lemma preserves_bind {A B} (c : M A) (k : A -> M B) :
  preserves I c -> (forall a, preserves I (k a)) -> preserves I (bind c k).
Proof.
  intros Hc Hk w Hw. unfold bind. specialize (Hc w Hw).
  destruct (c w) as [w' [a|e]]; cbn in *; auto. now apply Hk.
Qed.

Lemma preserves_try_catch {A} (body : M A) (handler : Exn -> M A) :
  preserves I body -> (forall e, preserves I (handler e)) ->
  preserves I (try_catch body handler).
Proof.
  intros Hb Hh w Hw. unfold try_catch. specialize (Hb w Hw).
  destruct (body w) as [w' [a|e]]; cbn in *; auto. now apply Hh.
Qed.

Lemma preserves_try_finally {A} (body : M A) (fin : M unit) :
  preserves I body -> preserves I fin -> preserves I (try_finally body fin).
Proof.
  intros Hb Hf w Hw. unfold try_finally. specialize (Hb w Hw).
  destruct (body w) as [w' r]; cbn in *. specialize (Hf w' Hb).
  destruct (fin w') as [w'' [[]|e]]; cbn in *; auto.
Qed.

Lemma preserves_modify (f : World -> World) :
  (forall w, I w -> I (f w)) -> preserves I (modify f).
Proof. intros Hf w Hw. now apply Hf. Qed.

End Preservation.

(** ** Lists updated in place *)

Lemma update_length {A} (l : list A) (i : nat) (f : A -> A) :
  List.length (update l i f) = List.length l.
Proof.
  revert i; induction l as [|x l IH]; intros [|i]; simpl; auto.
Qed.

Lemma nth_error_update {A} (l : list A) (i j : nat) (f : A -> A) :
  nth_error (update l i f) j =
    if (j =? i)%nat then option_map f (nth_error l j) else nth_error l j.
Proof.
  revert i j; induction l as [|x l IH]; intros [|i] [|j]; simpl; auto.
  now destruct (j =? i)%nat.
Qed.

Lemma nth_update {A} (l : list A) (i j : nat) (f : A -> A) (d : A) :
  (i < List.length l)%nat ->
  nth j (update l i f) d = if (j =? i)%nat then f (nth j l d) else nth j l d.
Proof.
  revert i j; induction l as [|x l IH]; intros [|i] [|j] H; simpl in *;
    auto; try lia.
  apply IH. lia.
Qed.

(** ** part_000: one playback at a time *)

Lemma playing_at_paused (l : list AudioEl) (i a : nat) :
  playing_at (update l i (fun x => mkAudio (src x) false)) a = true ->
  playing_at l a = true /\ a <> i.
Proof.
  unfold playing_at. rewrite nth_error_update.
  destruct (a =? i)%nat eqn:E.
  - destruct (nth_error l a); discriminate.
  - apply Nat.eqb_neq in E. auto.
Qed.

Lemma playing_at_started (l : list AudioEl) (i a : nat) :
  playing_at (update l i (fun x => mkAudio (src x) true)) a = true ->
  a = i \/ playing_at l a = true.
Proof.
  unfold playing_at. rewrite nth_error_update.
  destruct (a =? i)%nat eqn:E.
  - apply Nat.eqb_eq in E. auto.
  - auto.
Qed.

Lemma playing_at_fresh (l : list AudioEl) (u a : nat) :
  playing_at (l ++ [mkAudio u false]) a = playing_at l a.
Proof.
  unfold playing_at.
  destruct (Nat.lt_ge_cases a (List.length l)) as [Hlt|Hge].
  - now rewrite nth_error_app1.
  - rewrite nth_error_app2 by assumption.
    apply nth_error_None in Hge as ->.
    destruct (a - List.length l)%nat as [|[|n]]; reflexivity.
Qed.

Lemma silenced_length handle l : List.length (silenced handle l) = List.length l.
Proof. destruct handle; cbn; auto using update_length. Qed.

Lemma with_new_audio_length u autoplay l :
  List.length (with_new_audio u autoplay l) = S (List.length l).
Proof.
  unfold with_new_audio. destruct autoplay; rewrite ?update_length, length_app;
    cbn; lia.
Qed.

(** Once the designated element is paused nothing plays; the new element is
    then the only one that can. *)
Lemma new_audio_exclusive (handle : option nat) (l : list AudioEl) (u a : nat)
    (autoplay : bool) :
  (forall b, playing_at l b = true -> handle = Some b) ->
  playing_at (with_new_audio u autoplay (silenced handle l)) a = true ->
  a = List.length (silenced handle l).
Proof.
  intros Hplay Ha.
  assert (forall b, playing_at (silenced handle l) b = false) as Hquiet.
  { intros b. destruct (playing_at (silenced handle l) b) eqn:Hb; [|reflexivity].
    destruct handle as [i|]; cbn in Hb.
    - apply playing_at_paused in Hb as [Hb Hne].
      specialize (Hplay b Hb). congruence.
    - specialize (Hplay b Hb). discriminate. }
  unfold with_new_audio in Ha. destruct autoplay.
  - apply playing_at_started in Ha as [Ha|Ha]; [exact Ha|].
    rewrite playing_at_fresh, Hquiet in Ha. discriminate.
  - rewrite playing_at_fresh, Hquiet in Ha. discriminate.
Qed.

(** What [playAudioResponse] does to the audio elements and the handle:
    nothing when building the buffer throws, otherwise the designated element
    is paused and a new one, designated from now on, is created and started. *)
Lemma playAudioResponse_playback cb audioHex autoplay w :
  let w' := run (Part000.playAudioResponse cb audioHex autoplay) w in
  (audios w' = audios w /\ audioRef w' = audioRef w) \/
  (audios w' =
     with_new_audio (List.length (urls w)) autoplay (silenced (audioRef w) (audios w)) /\
   audioRef w' = Some (List.length (silenced (audioRef w) (audios w)))).
Proof.
  unfold Part000.playAudioResponse. unfold_js.
  destruct audioHex; try destruct (cb _); cbn; auto;
    right; unfold with_new_audio, silenced;
    destruct (audioRef w); destruct autoplay; cbn; auto.
Qed.

Lemma exclusive_playAudioResponse cb audioHex autoplay :
  preserves Playback.exclusive (Part000.playAudioResponse cb audioHex autoplay).
Proof.
  intros w [Hvalid Hplay].
  destruct (playAudioResponse_playback cb audioHex autoplay w) as [[Ha Hr]|[Ha Hr]];
    unfold run in *; unfold Playback.exclusive, is_playing in *;
    rewrite Ha, Hr; [now split|].
  split.
  - intros a [= <-]. rewrite with_new_audio_length. lia.
  - intros a Hp. f_equal. symmetry.
    now apply (new_audio_exclusive _ _ _ _ _ Hplay Hp).
Qed.

Lemma exclusive_frame (f : World -> World) :
  keeps_playback f -> forall w, Playback.exclusive w -> Playback.exclusive (f w).
Proof.
  intros Hf w [Hv Hp]. destruct (Hf w) as [Ha Hr].
  unfold Playback.exclusive, is_playing in *. rewrite Ha, Hr. now split.
Qed.

(** One structural step of a proof that a handler keeps [exclusive]. *)
Ltac keep_exclusive :=
  first
    [ apply preserves_ret | apply preserves_throw | apply preserves_lift
    | apply preserves_get
    | apply exclusive_playAudioResponse
    | apply preserves_bind; [|intro]
    | apply preserves_try_catch; [|intro]
    | apply preserves_try_finally
    | apply preserves_modify, exclusive_frame; intros ?; split; reflexivity
    | match goal with
      | |- preserves _ (if ?b then _ else _) => destruct b
      | |- preserves _ (match ?x with _ => _ end) => destruct x
      end ].

Lemma exclusive_handleSendAudio cb audioBlob remote autoplay :
  preserves Playback.exclusive (Part000.handleSendAudio cb audioBlob remote autoplay).
Proof.
  unfold Part000.handleSendAudio, fetch, json, setMessages, setIsLoading, setStatus.
  repeat keep_exclusive.
Qed.

Lemma exclusive_toggleRecording cb env :
  preserves Playback.exclusive (Part000.toggleRecording cb env).
Proof.
  unfold Part000.toggleRecording, Part000.start, Part000.stop,
    Part000.ondataavailable, getUserMedia, new_MediaRecorder, recorder_start,
    recorder_stop, stop_dispatched, setMessages, setStatus.
  repeat first [ apply exclusive_handleSendAudio | keep_exclusive ].
Qed.

Lemma exclusive_onended a : preserves Playback.exclusive (Part000.onended a).
Proof.
  intros w [Hvalid Hplay]. unfold Part000.onended. unfold_js. cbn.
  split; cbn.
  - intros b Hb. rewrite update_length. auto.
  - intros b Hb. apply Hplay.
    now apply (playing_at_paused (audios w) a b).
Qed.

Lemma exclusive_replay allowed : preserves Playback.exclusive (Part000.replay allowed).
Proof.
  intros w Hw. pose proof Hw as [Hvalid Hplay].
  unfold Part000.replay. unfold_js. cbn.
  destruct (audioRef w) as [current|] eqn:Href in |- *; cbn; [|exact Hw].
  destruct allowed; cbn; [|exact Hw].
  split; cbn.
  - intros b Hb. rewrite update_length. auto.
  - intros b Hb.
    apply (playing_at_started (audios w) current b) in Hb as [->|Hb]; auto.
Qed.

Lemma reachable_exclusive cb w : Playback.reachable cb w -> Playback.exclusive w.
Proof.
  induction 1 as [|w w' _ IH Hstep].
  - split; [discriminate|]. intros [|a]; discriminate.
  - destruct Hstep.
    + now apply exclusive_toggleRecording.
    + now apply exclusive_handleSendAudio.
    + now apply exclusive_onended.
    + now apply exclusive_replay.
Qed.

Lemma src_after_update (l : list AudioEl) (i j : nat) (b : bool) :
  match nth_error (update l i (fun x => mkAudio (src x) b)) j with
  | Some x => src x
  | None => O
  end = match nth_error l j with Some x => src x | None => O end.
Proof.
  rewrite nth_error_update.
  destruct (j =? i)%nat; destruct (nth_error l j); reflexivity.
Qed.

Lemma revoked_after_update (l : list UrlEntry) (u : nat) :
  match nth_error (update l u (fun e => mkUrl (url_blob e) false)) u with
  | Some e => url_live e
  | None => false
  end = false.
Proof.
  rewrite nth_error_update, Nat.eqb_refl. now destruct (nth_error l u).
Qed.

Lemma paused_then_fresh (l : list AudioEl) (previous u : nat) :
  (previous < List.length l)%nat ->
  playing_at (update l previous (fun x => mkAudio (src x) false) ++ [mkAudio u false])
    previous = false.
Proof.
  intros H. rewrite playing_at_fresh. unfold playing_at.
  rewrite nth_error_update, Nat.eqb_refl. now destruct (nth_error l previous).
Qed.

(** Replacing the handle: the previous element is paused and its URL revoked
    before the new element exists. *)
Lemma playAudioResponse_supersedes cb audioHex autoplay previous w :
  audioRef w = Some previous ->
  (previous < List.length (audios w))%nat ->
  let w' := run (Part000.playAudioResponse cb (VStr audioHex) autoplay) w in
  let fresh := List.length (audios w) in
  trace w' = trace w ++ [EvCreateObjectURL (List.length (urls w));
                         EvPause previous;
                         EvRevokeObjectURL (audio_src previous w);
                         EvNewAudio fresh;
                         EvPlay fresh] /\
  audioRef w' = Some fresh /\
  is_playing previous w' = false /\
  url_registered (audio_src previous w) w' = false.
Proof.
  intros Href Hvalid. unfold Part000.playAudioResponse. unfold_js. cbn.
  rewrite Href. unfold is_playing, url_registered, audio_src.
  destruct autoplay; cbn; rewrite ?update_length, <- ?app_assoc; cbn;
    rewrite !src_after_update, revoked_after_update;
    (repeat split; auto).
  - rewrite nth_error_update.
    replace (previous =? List.length (audios w))%nat with false
      by (symmetry; apply Nat.eqb_neq; lia).
    now apply paused_then_fresh.
  - now apply paused_then_fresh.
Qed.

(** ** Text entry *)

Lemma send_text_blank remote autoplay w :
  trim (transcript w) = EmptyString ->
  MainPage.handleSendText remote autoplay w = (w, Ok tt).
Proof.
  intros Hblank. unfold MainPage.handleSendText. unfold_js.
  cbn -[trim String.eqb]. now rewrite Hblank.
Qed.

Lemma send_text_nonblank remote autoplay w :
  trim (transcript w) <> EmptyString ->
  let text := trim (transcript w) in
  let payload := mkBlob [TextPart text] "text/plain" in
  let w' := run (MainPage.handleSendText remote autoplay) w in
  exists rest later,
    trace w' = trace w ++ EvMessages (messages w ++ [say user text])
                       :: EvFetch (mkRequest endpoint "POST" [mkField "audio" payload "text.wav"])
                       :: rest /\
    requests rest = O /\
    messages w' = messages w ++ say user text :: later /\
    forallb is_assistant later = true.
Proof.
  intros Hne. cbn zeta. run_as w' r E.
  apply String.eqb_neq in Hne.
  cbn -[trim String.eqb] in E. rewrite Hne in E.
  settle E; finish E; rewrite <- ?app_assoc; cbn [app];
    do 2 eexists; (split; [reflexivity|]); (split; [reflexivity|]);
    (split; [reflexivity|]); reflexivity.
Qed.

(** part_001 has the same [handleSendText]. *)
Lemma part001_send_text_same : Part001.handleSendText = MainPage.handleSendText.
Proof. reflexivity. Qed.

(** ** The capture device *)

Lemma held_frame (f : World -> World) :
  keeps_capture f -> forall w, Capture.held w -> Capture.held (f w).
Proof.
  intros Hf w Hw. destruct (Hf w) as [Hs Hr].
  unfold Capture.held, stream_live in *. now rewrite Hs, Hr.
Qed.

Lemma all_live_frame (f : World -> World) :
  (forall w, streams (f w) = streams w) ->
  forall w, Capture.all_live w -> Capture.all_live (f w).
Proof.
  intros Hf w Hw. unfold Capture.all_live, stream_live in *. now rewrite Hf.
Qed.

Ltac keep_held :=
  first
    [ apply preserves_ret | apply preserves_throw | apply preserves_lift
    | apply preserves_get
    | apply preserves_bind; [|intro]
    | apply preserves_try_catch; [|intro]
    | apply preserves_try_finally
    | apply preserves_modify, held_frame; intros ?;
      repeat match goal with
             | |- context [if ?b then _ else _] => destruct b
             end; split; reflexivity
    | match goal with
      | |- preserves _ (if ?b then _ else _) => destruct b
      | |- preserves _ (match ?x with _ => _ end) => destruct x
      end ].

Lemma held_handleSendAudio audioBlob remote autoplay :
  preserves Capture.held (Part001.handleSendAudio audioBlob remote autoplay).
Proof.
  unfold Part001.handleSendAudio, fetch, json, setMessages, setIsLoading,
    createObjectURL, new_Audio, play.
  repeat keep_held.
Qed.

Lemma held_handleSendText remote autoplay :
  preserves Capture.held (Part001.handleSendText remote autoplay).
Proof.
  unfold Part001.handleSendText, fetch, json, setMessages, setIsLoading,
    setTranscript, createObjectURL, new_Audio, play.
  repeat keep_held.
Qed.

Lemma live_after_stop (l : list bool) (i s : nat) :
  nth s (update l i (fun _ => false)) false = true ->
  s <> i /\ nth s l false = true.
Proof.
  revert i s; induction l as [|b l IH]; intros [|i] [|s]; simpl; intros H;
    try discriminate; auto.
  destruct (IH i s H). auto.
Qed.

Lemma dead_after_stop (l : list bool) (s : nat) :
  nth s (update l s (fun _ => false)) false = false.
Proof.
  revert s; induction l as [|b l IH]; intros [|s]; simpl; auto.
Qed.

(** The [stop] handler of part_001 releases the stream it captured. *)
Lemma onstop_releases stream remote autoplay w :
  let w' := run (Part001.onstop stream remote autoplay) w in
  stream_live stream w' = false /\
  exists rest,
    trace w' = trace w ++ EvTrackStop stream
                 :: EvFetch (mkRequest endpoint "POST"
                      [mkField "audio" (blob_of_chunks (audioChunks w) "audio/wav")
                         "recording.wav"])
                 :: rest.
Proof.
  cbn zeta. unfold stream_live. run_as w' r E.
  settle E; finish E; rewrite <- ?app_assoc; cbn [app];
    (split; [apply dead_after_stop | eexists; reflexivity]).
Qed.

Lemma held_stop_events r data remote autoplay :
  preserves Capture.held (Part001.stop_events r data remote autoplay).
Proof.
  intros w Hw.
  unfold Part001.stop_events, Part001.onstop, Part001.ondataavailable,
    stop_dispatched, stop_tracks.
  unfold_js. cbn -[Part001.handleSendAudio].
  apply held_handleSendAudio.
  intros s Hs. unfold stream_live in Hs. cbn in Hs.
  apply live_after_stop in Hs as [Hne Hlive].
  destruct (Hw s Hlive) as (r0 & x0 & Hr0 & Hstream & Hbusy).
  exists r0, x0. cbn. rewrite nth_error_update in *.
  destruct (r0 =? r)%nat eqn:Er; [|auto].
  apply Nat.eqb_eq in Er. subst r0. rewrite Nat.eqb_refl, Hr0 in Hne.
  cbn in Hne. congruence.
Qed.

Lemma held_toggleRecording granted :
  preserves Capture.held (Part001.toggleRecording granted).
Proof.
  intros w Hw. unfold Part001.toggleRecording, recorder_stop, getUserMedia,
    new_MediaRecorder, recorder_start.
  unfold_js. cbn.
  destruct (isRecording w); cbn.
  - (* stop *)
    destruct (mediaRecorder w) as [r|]; cbn; [|exact Hw].
    destruct (nth_error (recorders w) r) as [x|] eqn:Hr; cbn; [|exact Hw].
    destruct (rec_active x); cbn; [|exact Hw].
    intros s Hs. destruct (Hw s Hs) as (r0 & x0 & Hr0 & Hstream & Hbusy).
    cbn. destruct (Nat.eq_dec r0 r) as [->|Hne].
    + exists r, (mkRecorder (rec_stream x) false true).
      rewrite nth_error_update, Nat.eqb_refl, Hr. cbn.
      repeat split. congruence.
    + exists r0, x0. rewrite nth_error_update.
      apply Nat.eqb_neq in Hne. rewrite Hne. auto.
  - (* start *)
    destruct granted; cbn.
    + intros s Hs. unfold stream_live in Hs. cbn in Hs.
      destruct (Nat.lt_ge_cases s (List.length (streams w))) as [Hlt|Hge].
      * rewrite app_nth1 in Hs by assumption.
        destruct (Hw s Hs) as (r0 & x0 & Hr0 & Hstream & Hbusy).
        exists r0, x0. cbn. rewrite nth_error_update.
        assert (r0 < List.length (recorders w))%nat as Hr0lt
            by (apply nth_error_Some; congruence).
        replace (r0 =? List.length (recorders w))%nat with false
          by (symmetry; apply Nat.eqb_neq; lia).
        rewrite nth_error_app1 by assumption. auto.
      * rewrite app_nth2 in Hs by assumption.
        destruct (s - List.length (streams w))%nat as [|[|n]] eqn:Es;
          cbn in Hs; try discriminate.
        assert (s = List.length (streams w)) as -> by lia.
        exists (List.length (recorders w)),
               (mkRecorder (List.length (streams w)) true false).
        cbn. rewrite nth_error_update, Nat.eqb_refl.
        rewrite nth_error_app2, Nat.sub_diag by lia. cbn. auto.
    + refine (held_frame (fun w => emit _ (with_messages _ w)) _ w Hw).
      intros ?; split; reflexivity.
Qed.

Lemma reachable_held w : Capture.reachable w -> Capture.held w.
Proof.
  induction 1 as [|w w' _ IH Hstep].
  - intros [|s] Hs; discriminate.
  - destruct Hstep.
    + now apply held_toggleRecording.
    + now apply held_stop_events.
    + now apply held_handleSendText.
Qed.

Lemma update_last {A} (l : list A) (x : A) (f : A -> A) :
  update (l ++ [x]) (List.length l) f = l ++ [f x].
Proof. induction l as [|y l IH]; cbn; [reflexivity | now rewrite IH]. Qed.

(** First click, permission granted: a new live stream and a recorder on it. *)
Lemma part001_start w :
  isRecording w = false ->
  let w1 := run (Part001.toggleRecording true) w in
  streams w1 = streams w ++ [true] /\
  recorders w1 =
    recorders w ++ [mkRecorder (List.length (streams w)) true false] /\
  mediaRecorder w1 = Some (List.length (recorders w)) /\
  isRecording w1 = true.
Proof.
  intros Hidle. unfold Part001.toggleRecording, getUserMedia, new_MediaRecorder,
    recorder_start.
  unfold_js. cbn. rewrite Hidle. cbn. rewrite update_last. auto.
Qed.

(** Second click: the recorder is asked to stop; the stream is untouched. *)
Lemma part001_stop_click granted r x w :
  isRecording w = true ->
  mediaRecorder w = Some r ->
  nth_error (recorders w) r = Some x ->
  rec_active x = true ->
  let w2 := run (Part001.toggleRecording granted) w in
  streams w2 = streams w /\
  nth_error (recorders w2) r = Some (mkRecorder (rec_stream x) false true) /\
  isRecording w2 = false.
Proof.
  intros Hrec Hmr Hr Hactive. unfold Part001.toggleRecording, recorder_stop.
  unfold_js. cbn. rewrite Hrec. cbn. rewrite Hmr. cbn. rewrite Hr. cbn.
  rewrite Hactive. cbn. rewrite nth_error_update, Nat.eqb_refl, Hr. auto.
Qed.

Lemma part001_send_keeps_streams audioBlob remote autoplay w :
  streams (run (Part001.handleSendAudio audioBlob remote autoplay) w) = streams w.
Proof.
  run_as w' r E. settle E; finish E; reflexivity.
Qed.

(** The events of the stopped recorder: its stream is released. *)
Lemma part001_stop_events_release r x data remote autoplay w :
  nth_error (recorders w) r = Some x ->
  stream_live (rec_stream x) (run (Part001.stop_events r data remote autoplay) w) = false.
Proof.
  intros Hr. unfold stream_live.
  unfold Part001.stop_events, Part001.onstop, Part001.ondataavailable,
    stop_dispatched, stop_tracks.
  unfold_js. cbn -[Part001.handleSendAudio].
  match goal with
  | |- context [Part001.handleSendAudio ?b ?rm ?ap ?w0] =>
      pose proof (part001_send_keeps_streams b rm ap w0) as Hsame
  end.
  unfold run in Hsame. rewrite Hsame. cbn.
  rewrite nth_error_update, Nat.eqb_refl, Hr. cbn. apply dead_after_stop.
Qed.

(** A whole recording turn of part_001: the stream acquired by the first
    click is live until the [stop] event of its recorder has been handled. *)
Lemma part001_turn_releases granted data remote autoplay w :
  isRecording w = false ->
  let s := List.length (streams w) in
  let r := List.length (recorders w) in
  let w1 := run (Part001.toggleRecording true) w in
  let w2 := run (Part001.toggleRecording granted) w1 in
  let w3 := run (Part001.stop_events r data remote autoplay) w2 in
  stream_live s w1 = true /\ stream_live s w2 = true /\ stream_live s w3 = false.
Proof.
  intros Hidle s r w1 w2 w3.
  destruct (part001_start w Hidle) as (Hs1 & Hr1 & Hm1 & Hrec1). fold w1 in Hs1, Hr1, Hm1, Hrec1.
  assert (nth_error (recorders w1) r = Some (mkRecorder s true false)) as Hx.
  { rewrite Hr1. subst r. now rewrite nth_error_app2, Nat.sub_diag by lia. }
  destruct (part001_stop_click granted r _ w1 Hrec1 Hm1 Hx eq_refl) as (Hs2 & Hr2 & _).
  fold w2 in Hs2, Hr2. cbn in Hr2.
  assert (stream_live s w1 = true) as Hlive.
  { unfold stream_live. rewrite Hs1. subst s.
    now rewrite app_nth2, Nat.sub_diag by lia. }
  repeat split; auto.
  - unfold stream_live in *. now rewrite Hs2.
  - exact (part001_stop_events_release r _ data remote autoplay w2 Hr2).
Qed.

(** *** part_000 never stops a track *)

Lemma all_live_getUserMedia granted : preserves Capture.all_live (getUserMedia granted).
Proof.
  destruct granted; [|apply preserves_throw].
  intros w Hw s Hs. unfold stream_live in *. cbn in *.
  rewrite length_app in Hs. cbn in Hs.
  destruct (Nat.lt_ge_cases s (List.length (streams w))) as [Hlt|Hge].
  - rewrite app_nth1 by assumption. now apply Hw.
  - assert (s = List.length (streams w)) as -> by lia.
    now rewrite app_nth2, Nat.sub_diag by lia.
Qed.

Ltac keep_live :=
  first
    [ apply preserves_ret | apply preserves_throw | apply preserves_lift
    | apply preserves_get
    | apply all_live_getUserMedia
    | apply preserves_bind; [|intro]
    | apply preserves_try_catch; [|intro]
    | apply preserves_try_finally
    | apply preserves_modify, all_live_frame; intros ?;
      repeat match goal with
             | |- context [if ?b then _ else _] => destruct b
             end; reflexivity
    | match goal with
      | |- preserves _ (if ?b then _ else _) => destruct b
      | |- preserves _ (match ?x with _ => _ end) => destruct x
      end ].

Lemma all_live_playAudioResponse cb audioHex autoplay :
  preserves Capture.all_live (Part000.playAudioResponse cb audioHex autoplay).
Proof.
  unfold Part000.playAudioResponse, createObjectURL, new_Audio, play, pause,
    revokeObjectURL, setPlaybackError.
  repeat keep_live.
Qed.

Lemma all_live_handleSendAudio cb audioBlob remote autoplay :
  preserves Capture.all_live (Part000.handleSendAudio cb audioBlob remote autoplay).
Proof.
  unfold Part000.handleSendAudio, fetch, json, setMessages, setIsLoading, setStatus.
  repeat first [ apply all_live_playAudioResponse | keep_live ].
Qed.

Lemma all_live_toggleRecording cb env :
  preserves Capture.all_live (Part000.toggleRecording cb env).
Proof.
  unfold Part000.toggleRecording, Part000.start, Part000.stop,
    Part000.ondataavailable, new_MediaRecorder, recorder_start,
    recorder_stop, stop_dispatched, setMessages, setStatus.
  repeat first [ apply all_live_handleSendAudio | keep_live ].
Qed.

Lemma all_live_onended a : preserves Capture.all_live (Part000.onended a).
Proof.
  unfold Part000.onended, revokeObjectURL, setPlaybackError. repeat keep_live.
Qed.

Lemma all_live_replay allowed : preserves Capture.all_live (Part000.replay allowed).
Proof.
  unfold Part000.replay, play. repeat keep_live.
Qed.

(** Whatever part_000 does, every stream it ever acquired is still live. *)
Lemma part000_never_releases cb w :
  Playback.reachable cb w -> Capture.all_live w.
Proof.
  induction 1 as [|w w' _ IH Hstep].
  - intros s Hs. cbn in Hs. lia.
  - destruct Hstep.
    + now apply all_live_toggleRecording.
    + now apply all_live_handleSendAudio.
    + now apply all_live_onended.
    + now apply all_live_replay.
Qed.

(** * The claims *)

(** The scenario of the specification: a successful turn with
    [audio: "48656c6c6f"] logs the two messages and creates a playback
    resource from the bytes 48 65 6C 6C 6F. *)
Example successful_turn :
  let w := run (Part000.handleSendAudio no_coercion (Some sample_blob)
                  (Some (mkResponse 200 (Some reply_with_audio))) true) initial in
  messages w = [say user "hello"; say assistant "hi there"] /\
  option_map url_blob (nth_error (urls w) 0) =
    Some (mkBlob [BytesPart [72; 101; 108; 108; 111]] "audio/wav") /\
  audioRef w = Some 0%nat /\ is_playing 0 w = true /\ status w = idle.
Proof. vm_compute. auto. Qed.

(** C1.  Every call of [handleSendAudio] of part_000 completes normally with
    the session state [idle] and the loading flag cleared, whatever the
    payload, the remote outcome and the playback outcome; so does every click
    that ends a recording.  In main-page.tsx, which keeps no session state of
    its own, every call on a blob completes normally with the loading flag
    cleared. *)
Theorem send_returns_to_idle cb audioBlob blob converted remote autoplay env w :
  let c := Part000.handleSendAudio cb audioBlob remote autoplay in
  let turn := Part000.toggleRecording cb env in
  let c' := MainPage.handleSendAudio (Some blob) converted remote autoplay in
  (outcome c w = Ok tt /\ status (run c w) = idle /\ isLoading (run c w) = false) /\
  (outcome turn (with_status recording w) = Ok tt /\
   status (run turn (with_status recording w)) = idle) /\
  (outcome c' w = Ok tt /\ isLoading (run c' w) = false).
Proof.
  split; [|split].
  - apply part000_send_returns_to_idle.
  - now apply part000_turn_ends_idle.
  - apply main_page_send_clears_loading.
Qed.

(** C2, as stated, fails on main-page.tsx: a null blob is dropped silently. *)
Lemma main_page_null_blob_is_silent :
  ~ (forall audioBlob converted remote autoplay w,
       is_empty audioBlob = true ->
       let w' := run (MainPage.handleSendAudio audioBlob converted remote autoplay) w in
       requests (trace w') = requests (trace w) /\
       exists m, is_assistant m = true /\ messages w' = messages w ++ [m]).
Proof.
  intros H.
  destruct (H None None None false initial eq_refl) as [_ (m & _ & Hm)].
  discriminate Hm.
Qed.

(** C2, amended.  In part_000 a call of [handleSendAudio] with a null or
    zero-size blob issues no request and appends exactly one assistant
    message; in main-page.tsx a null blob makes the call return with no
    effect at all. *)
Theorem empty_payload_handling cb audioBlob converted remote autoplay w :
  let w' := run (Part000.handleSendAudio cb audioBlob remote autoplay) w in
  (is_empty audioBlob = true ->
   requests (trace w') = requests (trace w) /\
   messages w' = messages w ++ [say assistant "No audio recorded. Please try again."]) /\
  MainPage.handleSendAudio None converted remote autoplay w = (w, Ok tt).
Proof.
  cbn zeta. split; [|reflexivity]. intros Hempty.
  destruct (part000_empty_payload cb audioBlob remote autoplay w Hempty) as [Ht Hm].
  cbn zeta in *. split; [|exact Hm].
  rewrite Ht, requests_app. cbn. lia.
Qed.

Lemma empty_payload_handling_witness :
  is_empty (Some empty_blob) = true /\
  let w' := run (Part000.handleSendAudio no_coercion (Some empty_blob) None false) initial in
  (requests (trace w') = requests (trace initial) /\
   messages w' = messages initial ++ [say assistant "No audio recorded. Please try again."]) /\
  MainPage.handleSendAudio None None None false initial = (initial, Ok tt).
Proof.
  split; [reflexivity|]. cbn zeta.
  destruct (empty_payload_handling no_coercion (Some empty_blob) None None false initial)
    as [Hpart000 Hmain].
  split; [apply Hpart000; reflexivity | exact Hmain].
Defined.

(** C3.  main-page.tsx on a 200 answer that reports success and carries no
    audio logs three messages, the third being the failure notice, where the
    claim promises two.  part_000 logs exactly the two messages, user then
    assistant, on every 2xx answer that reports success. *)
Theorem main_page_success_logs_three cb blob r props autoplay w :
  let answer := Some (mkResponse 200 (Some reply_without_audio)) in
  messages (run (MainPage.handleSendAudio (Some sample_blob) (Some sample_wav)
                   answer true) initial) =
    [say user "hello"; say assistant "hi there";
     say assistant "Sorry, I couldn't process that. Please try again."] /\
  (blob_size blob <> O ->
   ok r = true ->
   body r = Some (VObj props) ->
   lookup "status" props = VStr "success" ->
   messages (run (Part000.handleSendAudio cb (Some blob) (Some r) autoplay) w) =
     messages w ++ [mkMessage user (lookup "transcript" props);
                    mkMessage assistant (lookup "response_text" props)]).
Proof.
  split; [reflexivity|]. apply part000_success.
Qed.

Lemma main_page_success_logs_three_witness :
  let r := mkResponse 200 (Some reply_without_audio) in
  blob_size sample_blob <> O /\ ok r = true /\
  messages (run (Part000.handleSendAudio no_coercion (Some sample_blob) (Some r) true)
              initial) =
    [say user "hello"; say assistant "hi there"].
Proof.
  cbn zeta. split; [discriminate|]. split; [reflexivity|].
  destruct (main_page_success_logs_three no_coercion sample_blob
              (mkResponse 200 (Some reply_without_audio))
              [("status", VStr "success"); ("transcript", VStr "hello");
               ("response_text", VStr "hi there")] true initial) as [_ H].
  apply H; first [reflexivity | discriminate].
Defined.

(** C4.  part_001 does not look at the HTTP status: an answer with status 500
    whose body reports success is handled as a success and two messages are
    logged, where the claim promises a single assistant message.  In part_000
    a rejected request, a non-2xx status, a malformed body and a body that
    does not report success all append the same single assistant message
    after the unchanged log; in part_001 a rejected request, a malformed body
    and a body that does not report success do. *)
Theorem failure_appends_one_message cb blob remote autoplay w :
  (failed (Some (mkResponse 500 (Some reply_with_audio))) = true /\
   messages (run (Part001.handleSendAudio (Some sample_blob)
                    (Some (mkResponse 500 (Some reply_with_audio))) true) initial) =
     [say user "hello"; say assistant "hi there"]) /\
  (blob_size blob <> O ->
   failed remote = true ->
   messages (run (Part000.handleSendAudio cb (Some blob) remote autoplay) w) =
     messages w ++ [say assistant "Error: Could not process audio. Please try again."]) /\
  (failed_ignoring_status remote = true ->
   messages (run (Part001.handleSendAudio (Some blob) remote autoplay) w) =
     messages w ++ [say assistant "Sorry, I couldn't process that. Please try again."]).
Proof.
  split; [split; reflexivity|]. split.
  - intros Hsize Hfail. now apply part000_failure.
  - intros Hfail. now apply part001_failure.
Qed.

Lemma failure_appends_one_message_witness :
  let remote := Some (mkResponse 500 (Some reply_error)) in
  blob_size sample_blob <> O /\ failed remote = true /\
  failed_ignoring_status remote = true /\
  messages (run (Part000.handleSendAudio no_coercion (Some sample_blob) remote true)
              initial) =
    messages initial ++ [say assistant "Error: Could not process audio. Please try again."] /\
  messages (run (Part001.handleSendAudio (Some sample_blob) remote true) initial) =
    messages initial ++ [say assistant "Sorry, I couldn't process that. Please try again."].
Proof.
  cbn zeta.
  destruct (failure_appends_one_message no_coercion sample_blob
              (Some (mkResponse 500 (Some reply_error))) true initial) as (_ & H0 & H1).
  split; [discriminate|]. split; [reflexivity|]. split; [reflexivity|].
  split; [apply H0; [discriminate | reflexivity] | apply H1; reflexivity].
Defined.

(** C5.  On the encoding of the empty byte sequence the decoder of
    main-page.tsx throws where the claim promises the empty sequence back, and
    inside [handleSendAudio] the exception turns a successful turn into a
    logged failure.  The rest holds: two hex characters decode to sixteen
    times the first nibble plus the second, the loop of part_000 gives every
    byte sequence back, and so does the decoder of main-page.tsx on every
    non-empty one. *)
Theorem regex_decoder_fails_on_empty_encoding a b bytes :
  (match_to_bytes (hex_encode []) = Thrown TypeError /\
   messages (run (MainPage.handleSendAudio (Some sample_blob) (Some sample_wav)
                    (Some (mkResponse 200 (Some reply_with_empty_audio))) true) initial) =
     [say user "hello"; say assistant "hi there";
      say assistant "Sorry, I couldn't process that. Please try again."]) /\
  (is_hex_char a = true -> is_hex_char b = true ->
   hex_to_buffer (String a (String b EmptyString)) = [16 * hex_value a + hex_value b]) /\
  (forallb is_byte bytes = true ->
   hex_to_buffer (hex_encode bytes) = bytes /\
   (bytes <> [] -> match_to_bytes (hex_encode bytes) = Ok bytes)).
Proof.
  split; [split; reflexivity|]. split.
  - intros Ha Hb. rewrite hex_to_buffer_pairs. cbn [decode_pairs].
    now rewrite pair_value.
  - intros Hbytes. split.
    + now apply hex_to_buffer_round_trip.
    + now apply match_to_bytes_round_trip.
Qed.

Lemma regex_decoder_fails_on_empty_encoding_witness :
  is_hex_char "4" = true /\ is_hex_char "8" = true /\
  hex_to_buffer "48" = [72] /\
  forallb is_byte [72; 105] = true /\
  hex_to_buffer (hex_encode [72; 105]) = [72; 105] /\
  match_to_bytes (hex_encode [72; 105]) = Ok [72; 105].
Proof.
  destruct (regex_decoder_fails_on_empty_encoding "4" "8" [72; 105])
    as (_ & Hpair & Hround).
  split; [reflexivity|]. split; [reflexivity|].
  split; [apply Hpair; reflexivity|]. split; [reflexivity|].
  destruct (Hround eq_refl) as [Hloop Hmatch].
  split; [exact Hloop | apply Hmatch; discriminate].
Defined.

(** C6.  main-page.tsx keeps no handle on the audio it starts: two turns in
    a row leave two audio elements playing, which the claim excludes.  In
    part_000, in every state the component can reach, at most one audio
    element is playing; and when [playAudioResponse] runs on a string while
    the handle designates a previous element, that element is paused and its
    object URL revoked before the new element is created and started. *)
Theorem part000_single_playback cb w audioHex autoplay previous a b :
  (let send := MainPage.handleSendAudio (Some sample_blob) (Some sample_wav)
                 (Some (mkResponse 200 (Some reply_with_audio))) true in
   let overlapping := run send (run send initial) in
   is_playing 0 overlapping = true /\ is_playing 1 overlapping = true) /\
  (Playback.reachable cb w ->
   (is_playing a w = true -> is_playing b w = true -> a = b) /\
   (audioRef w = Some previous ->
    let w' := run (Part000.playAudioResponse cb (VStr audioHex) autoplay) w in
    let fresh := List.length (audios w) in
    trace w' = trace w ++ [EvCreateObjectURL (List.length (urls w));
                           EvPause previous;
                           EvRevokeObjectURL (audio_src previous w);
                           EvNewAudio fresh;
                           EvPlay fresh] /\
    audioRef w' = Some fresh /\
    is_playing previous w' = false /\
    url_registered (audio_src previous w) w' = false)).
Proof.
  split; [split; reflexivity|].
  intros Hreach. destruct (reachable_exclusive cb w Hreach) as [Hvalid Hplay].
  split.
  - intros Ha Hb. apply Hplay in Ha, Hb. congruence.
  - intros Href. apply playAudioResponse_supersedes; auto.
Qed.

Lemma part000_single_playback_witness :
  let w := run (Part000.handleSendAudio no_coercion (Some sample_blob)
                  (Some (mkResponse 200 (Some reply_with_audio))) true) initial in
  Playback.reachable no_coercion w /\
  is_playing 0 w = true /\ audioRef w = Some 0%nat /\
  let w' := run (Part000.playAudioResponse no_coercion (VStr "4869") true) w in
  trace w' = trace w ++ [EvCreateObjectURL 1; EvPause 0; EvRevokeObjectURL 0;
                         EvNewAudio 1; EvPlay 1] /\
  audioRef w' = Some 1%nat /\
  is_playing 0 w' = false /\
  url_registered 0 w' = false.
Proof.
  cbn zeta.
  assert (Playback.reachable no_coercion
            (run (Part000.handleSendAudio no_coercion (Some sample_blob)
                    (Some (mkResponse 200 (Some reply_with_audio))) true) initial))
    as Hreach.
  { eapply Playback.reach_step; [apply Playback.reach_initial|].
    apply Playback.step_send. }
  split; [exact Hreach|]. split; [reflexivity|]. split; [reflexivity|].
  destruct (part000_single_playback no_coercion
              (run (Part000.handleSendAudio no_coercion (Some sample_blob)
                      (Some (mkResponse 200 (Some reply_with_audio))) true) initial)
              "4869" true 0%nat 0%nat 0%nat)
    as [_ H].
  destruct (H Hreach) as [_ Hsupersede].
  apply Hsupersede. reflexivity.
Defined.

(** C7.  [handleSendText] (main-page.tsx; part_001 has the same function):
    when the trimmed text is empty the call changes nothing; otherwise the
    first two effects are the append of one user message holding the trimmed
    text and then the one request, whose [audio] field is a [text/plain] blob
    of that text named ["text.wav"]; whatever is logged afterwards is from
    the assistant. *)
Theorem send_text_behaviour remote autoplay w :
  let text := trim (transcript w) in
  let payload := mkBlob [TextPart text] "text/plain" in
  let c := MainPage.handleSendText remote autoplay in
  (text = EmptyString -> c w = (w, Ok tt)) /\
  (text <> EmptyString ->
   exists rest later,
     trace (run c w) =
       trace w ++ EvMessages (messages w ++ [say user text])
               :: EvFetch (mkRequest endpoint "POST" [mkField "audio" payload "text.wav"])
               :: rest /\
     requests rest = O /\
     messages (run c w) = messages w ++ say user text :: later /\
     forallb is_assistant later = true).
Proof.
  cbn zeta. split.
  - apply send_text_blank.
  - apply send_text_nonblank.
Qed.

Lemma send_text_behaviour_witness :
  let w := with_transcript "  hi there  " initial in
  let remote := Some (mkResponse 200 (Some reply_with_audio)) in
  (trim (transcript initial) = EmptyString /\
   MainPage.handleSendText remote true initial = (initial, Ok tt)) /\
  (trim (transcript w) <> EmptyString /\
   exists rest later,
     trace (run (MainPage.handleSendText remote true) w) =
       trace w ++ EvMessages (messages w ++ [say user "hi there"])
               :: EvFetch (mkRequest endpoint "POST"
                             [mkField "audio" (mkBlob [TextPart "hi there"] "text/plain")
                                "text.wav"])
               :: rest /\
     requests rest = O /\
     messages (run (MainPage.handleSendText remote true) w) =
       messages w ++ say user "hi there" :: later /\
     forallb is_assistant later = true).
Proof.
  cbn zeta. split.
  - split; [reflexivity|].
    apply (send_text_behaviour (Some (mkResponse 200 (Some reply_with_audio))) true initial).
    reflexivity.
  - split; [discriminate|].
    apply (send_text_behaviour (Some (mkResponse 200 (Some reply_with_audio))) true
             (with_transcript "  hi there  " initial)).
    discriminate.
Defined.

(** C8.  part_000 stops the recorder but not the stream: after a complete
    turn the stream that [start] acquired is still live, where the claim
    promises its release.  In part_001 a live stream always belongs to a
    recorder that is recording or whose [stop] event is pending; the stream
    acquired by a first click stays live through the second click and is
    released by the handler of the [stop] event, after the payload is built
    and before it is sent. *)
Theorem part001_releases_capture_device granted data remote autoplay w :
  (let env := Part000.mkEnv true sample_blob (Some sample_wav)
                (Some (mkResponse 200 (Some reply_with_audio))) true in
   let w1 := run (Part000.toggleRecording no_coercion env) initial in
   let w2 := run (Part000.toggleRecording no_coercion env) w1 in
   status w1 = recording /\ status w2 = idle /\ requests (trace w2) = 1%nat /\
   stream_live 0 w2 = true) /\
  (Capture.reachable w ->
   isRecording w = false ->
   let s := List.length (streams w) in
   let r := List.length (recorders w) in
   let w1 := run (Part001.toggleRecording true) w in
   let w2 := run (Part001.toggleRecording granted) w1 in
   let w3 := run (Part001.stop_events r data remote autoplay) w2 in
   Capture.held w /\
   stream_live s w1 = true /\ stream_live s w2 = true /\ stream_live s w3 = false /\
   exists rest,
     trace w3 = trace w2 ++ EvTrackStop s
                  :: EvFetch (mkRequest endpoint "POST"
                       [mkField "audio" (blob_of_chunks (audioChunks w2 ++ [data]) "audio/wav")
                          "recording.wav"])
                  :: rest).
Proof.
  split; [repeat split; reflexivity|].
  intros Hreach Hidle s r w1 w2 w3.
  destruct (part001_turn_releases granted data remote autoplay w Hidle)
    as (H1 & H2 & H3).
  split; [now apply reachable_held|]. repeat split; auto.
  destruct (part001_start w Hidle) as (Hs1 & Hr1 & Hm1 & Hrec1).
  fold w1 in Hs1, Hr1, Hm1, Hrec1.
  assert (nth_error (recorders w1) r = Some (mkRecorder s true false)) as Hx.
  { rewrite Hr1. subst r. now rewrite nth_error_app2, Nat.sub_diag by lia. }
  destruct (part001_stop_click granted r _ w1 Hrec1 Hm1 Hx eq_refl) as (_ & Hr2 & _).
  fold w2 in Hr2. cbn in Hr2.
  subst w3. unfold Part001.stop_events, Part001.ondataavailable, stop_dispatched.
  unfold_js. cbn -[Part001.onstop]. rewrite nth_error_update, Nat.eqb_refl, Hr2.
  cbn -[Part001.onstop].
  match goal with
  | |- context [Part001.onstop ?st ?rm ?ap ?w0] =>
      destruct (onstop_releases st rm ap w0) as [_ [rest Hrest]];
      unfold run in Hrest; exists rest; rewrite Hrest
  end.
  reflexivity.
Qed.

Lemma part001_releases_capture_device_witness :
  let w1 := run (Part001.toggleRecording true) initial in
  let w2 := run (Part001.toggleRecording true) w1 in
  let w3 := run (Part001.stop_events 0 sample_blob None false) w2 in
  Capture.reachable initial /\ isRecording initial = false /\
  Capture.held initial /\
  stream_live 0 w1 = true /\ stream_live 0 w2 = true /\ stream_live 0 w3 = false /\
  exists rest,
    trace w3 = trace w2 ++ EvTrackStop 0
                 :: EvFetch (mkRequest endpoint "POST"
                      [mkField "audio" (blob_of_chunks (audioChunks w2 ++ [sample_blob]) "audio/wav")
                         "recording.wav"])
                 :: rest.
Proof.
  cbn zeta. split; [apply Capture.reach_initial|]. split; [reflexivity|].
  destruct (part001_releases_capture_device true sample_blob None false initial)
    as [_ H].
  apply (H Capture.reach_initial eq_refl).
Defined.

(** C9.  The two decoders differ on the empty string, which is an
    even-length string of hex characters: the index loop returns the empty
    array, the regular-expression decoder throws.  On every other
    even-length string of hex characters they return the same bytes. *)
Theorem decoders_differ_on_empty_string s :
  (all_hex EmptyString = true /\ even_length EmptyString = true /\
   hex_to_buffer EmptyString = [] /\
   match_to_bytes EmptyString = Thrown TypeError) /\
  (all_hex s = true -> even_length s = true -> s <> EmptyString ->
   match_to_bytes s = Ok (hex_to_buffer s)).
Proof.
  split; [repeat split|]. apply decoders_agree_nonempty.
Qed.

Lemma decoders_differ_on_empty_string_witness :
  all_hex "48656C6c6f21" = true /\ even_length "48656C6c6f21" = true /\
  match_to_bytes "48656C6c6f21" = Ok (hex_to_buffer "48656C6c6f21") /\
  hex_to_buffer "48656C6c6f21" = [72; 101; 108; 108; 111; 33].
Proof.
  destruct (decoders_differ_on_empty_string "48656C6c6f21") as [_ H].
  split; [reflexivity|]. split; [reflexivity|].
  split; [apply H; first [reflexivity | discriminate] | reflexivity].
Defined.


